(** * Nonconformity functions of [nonconformist/nc.py]

    Shallow embedding of the score functions and of the two caching
    adapters [ProbEstClassifierNc] and [RegressorNc].

    Modelling choices:
    - numpy float64 values are modelled by exact rationals [Q], the
      rounding of float64 arithmetic being abstracted away.  The [float32]
      buffer [prob] of the classification scores is modelled exactly: each
      value stored into it is rounded to the nearest float32 ([f32]), and
      [1 - prob] in [inverse_probability] is float32 arithmetic, rounded
      the same way.  Matrices handled by the classification scores also
      hold the special values the code itself writes ([-np.inf]) and those
      arithmetic can produce from them ([+inf], [nan]): type [fl].
    - numpy arrays that are shared or mutated live in an explicit store
      ([list] of arrays indexed by location, allocation appends); functions
      that touch the store run in a small state/error monad [ST] in which
      an exception leaves the store as it was at the point of the raise. *)

From Stdlib Require Import ZArith QArith Qpower Qround Qabs Lia Lqa Sorting.Mergesort
  Sorting.Permutation Sorting.Sorted.
From stdpp Require Import base list.

Open Scope Q_scope.

(* ------------------------------------------------------------------ *)
(** ** Floating-point values with infinities and NaN *)

Inductive fl : Type :=
| NaN
| NInf
| Fin (q : Q)
| PInf.

Definition fl_sub (a b : fl) : fl :=
  match a, b with
  | NaN, _ | _, NaN => NaN
  | Fin x, Fin y => Fin (x - y)
  | Fin _, NInf | PInf, NInf | PInf, Fin _ => PInf
  | Fin _, PInf | NInf, PInf | NInf, Fin _ => NInf
  | NInf, NInf | PInf, PInf => NaN
  end.

(** [x / 2] *)
Definition fl_half (a : fl) : fl :=
  match a with
  | Fin x => Fin (x / 2)
  | v => v
  end.

(** [np.maximum]: NaN propagates. *)
Definition fl_max (a b : fl) : fl :=
  match a, b with
  | NaN, _ | _, NaN => NaN
  | NInf, v | v, NInf => v
  | PInf, _ | _, PInf => PInf
  | Fin x, Fin y => if Qle_bool x y then Fin y else Fin x
  end.

(* ------------------------------------------------------------------ *)
(** ** Rounding to float32

    IEEE 754 binary32 conversion, round to nearest with ties to even: 24
    significant bits, exponents from -126 on (below that, subnormals with
    the fixed quantum 2^-149), and overflow to an infinity once the rounded
    magnitude reaches 2^128. *)

(** The binary exponent [floor (log2 a)] of a positive rational. *)
Definition flog2 (a : Q) : Z :=
  let e := (Z.log2 (Qnum a) - Z.log2 (Zpos (Qden a)))%Z in
  if Qle_bool (2 ^ e) a then e else (e - 1)%Z.

(** The integer nearest to [x], ties to the even one. *)
Definition rne (x : Q) : Z :=
  let f := Qfloor x in
  match Qcompare (x - inject_Z f) (1 # 2) with
  | Lt => f
  | Gt => (f + 1)%Z
  | Eq => if Z.even f then f else (f + 1)%Z
  end.

(** The spacing of the float32 values around [a > 0]. *)
Definition f32_ulp (a : Q) : Q := 2 ^ (Z.max (flog2 a) (-126) - 23).

(** A rational rounded to float32, the exponent range unbounded above. *)
Definition f32_round (q : Q) : Q :=
  if Qeq_bool q 0 then 0 else
  let a := Qabs q in
  let r := inject_Z (rne (a / f32_ulp a)) * f32_ulp a in
  if Qle_bool 0 q then r else - r.

(** Storing a value into a float32 array. *)
Definition f32 (v : fl) : fl :=
  match v with
  | Fin q =>
      let r := f32_round q in
      if Qle_bool (2 ^ 128) (Qabs r) then (if Qle_bool 0 q then PInf else NInf)
      else Fin r
  | v => v
  end.

(* ------------------------------------------------------------------ *)
(** ** numpy helpers *)

(** Elementwise binary operation with numpy broadcasting of 1-D arrays. *)
Definition bcast {A B C : Type} (f : A -> B -> C) (a : list A) (b : list B)
  : option (list C) :=
  if decide (length a = length b) then Some (zip_with f a b)
  else match a, b with
       | [x], _ => Some (map (f x) b)
       | _, [z] => Some (map (fun x => f x z) a)
       | _, _ => None
       end.

(** Python indexing [l[i]] with an integer index: negative indices count
    from the end, out of range raises [IndexError] ([None]). *)
Definition py_index {A : Type} (l : list A) (i : Z) : option A :=
  if Z.leb 0 i then l !! Z.to_nat i
  else if Z.leb (- Z.of_nat (length l)) i
       then l !! Z.to_nat (Z.of_nat (length l) + i)
       else None.

(** Row maxima [m.max(axis=1)]: a zero-size row raises. *)
Definition np_max_row (row : list fl) : option fl :=
  match row with
  | [] => None
  | x :: r => Some (fold_left fl_max r x)
  end.

Fixpoint np_max_axis1 (m : list (list fl)) : option (list fl) :=
  match m with
  | [] => Some []
  | row :: m' =>
      match np_max_row row, np_max_axis1 m' with
      | Some x, Some xs => Some (x :: xs)
      | _, _ => None
      end
  end.

(** [np.sort] on rationals (ascending). *)
Module QLeb <: Orders.TotalLeBool.
Definition t := Q.
Definition leb (x y : Q) : bool := Qle_bool x y.
Theorem leb_total : forall x y, leb x y = true \/ leb y x = true.
Proof.
  intros x y. unfold leb. rewrite !Qle_bool_iff.
  destruct (Qlt_le_dec x y); [left; apply Qlt_le_weak | right]; auto.
Qed.
End QLeb.

Module QSort := Sort QLeb.

Definition np_sort (l : list Q) : list Q := QSort.sort l.

(* ------------------------------------------------------------------ *)
(** ** State and error monad over a store *)

Definition ST (S A : Type) : Type := S -> option A * S.

Definition st_ret {S A : Type} (a : A) : ST S A := fun s => (Some a, s).

Definition st_bind {S A B : Type} (m : ST S A) (k : A -> ST S B) : ST S B :=
  fun s => match m s with
           | (Some a, s') => k a s'
           | (None, s') => (None, s')
           end.

(** raising an exception *)
Definition st_raise {S A : Type} : ST S A := fun s => (None, s).

Definition st_lift {S A : Type} (o : option A) : ST S A :=
  fun s => (o, s).

Definition st_get {S : Type} : ST S S := fun s => (Some s, s).
Definition st_put {S : Type} (s : S) : ST S unit := fun _ => (Some tt, s).

Notation "x <-- m ;; k" := (st_bind m (fun x => k))
  (at level 100, m at next level, right associativity).
Notation "m ;;; k" := (st_bind m (fun _ => k))
  (at level 100, right associativity).

(** The array store: location [l] holds the [l]-th array. *)
Definition loc := nat.

Section Store.
Context {V : Type}.

Definition load (l : loc) : ST (list V) V :=
  fun h => (h !! l, h).

(** writing the whole content of an existing array *)
Definition store (l : loc) (v : V) : ST (list V) unit :=
  fun h => if decide (l < length h)%nat then (Some tt, <[l := v]> h)
           else (None, h).

(** a fresh array *)
Definition alloc (v : V) : ST (list V) loc :=
  fun h => (Some (length h), h ++ [v]).
End Store.

(* ------------------------------------------------------------------ *)
(** ** Classification error functions *)

(** A prediction matrix in the store: rows are samples. *)
Abbreviation matrix := (list (list fl)).

(** [prediction[i, y[i]]] *)
Definition entry (m : matrix) (i : nat) (j : nat) : option fl :=
  row ← m !! i; row !! j.

(** [for i, y_ in enumerate(y): prob[i] = prediction[i, y[i]]] *)
Fixpoint inverse_probability_loop (m : matrix) (i : nat) (y : list nat)
  : option (list fl) :=
  match y with
  | [] => Some []
  | yi :: y' =>
      v ← entry m i yi;
      rest ← inverse_probability_loop m (S i) y';
      Some (v :: rest)
  end.

(** [prob] is a float32 array: each recorded value is rounded to float32,
    and [1 - prob] is computed in float32. *)
Definition inverse_probability (prediction : loc) (y : list nat)
  : ST (list matrix) (list fl) :=
  m <-- load prediction ;;
  prob <-- st_lift (inverse_probability_loop m 0 y) ;;
  let prob := map f32 prob in
  st_ret (map (fun p => f32 (fl_sub (Fin 1) p)) prob).

(** The loop of [margin]: records [prediction[i, y[i]]] into the float32
    array [prob] and overwrites it with [-np.inf], one sample at a time. *)
Fixpoint margin_loop (prediction : loc) (i : nat) (y : list nat)
  : ST (list matrix) (list fl) :=
  match y with
  | [] => st_ret []
  | yi :: y' =>
      m <-- load prediction ;;
      row <-- st_lift (m !! i) ;;
      v <-- st_lift (row !! yi) ;;
      store prediction (<[i := <[yi := NInf]> row]> m) ;;;
      rest <-- margin_loop prediction (S i) y' ;;
      st_ret (f32 v :: rest)
  end.

Definition margin (prediction : loc) (y : list nat)
  : ST (list matrix) (list fl) :=
  prob <-- margin_loop prediction 0 y ;;
  m <-- load prediction ;;
  mx <-- st_lift (np_max_axis1 m) ;;
  d <-- st_lift (bcast fl_sub prob mx) ;;
  st_ret (map (fl_sub (Fin (1 # 2))) (map fl_half d)).

(* ------------------------------------------------------------------ *)
(** ** Regression error functions *)

(** Regression arrays in the store are 1-D arrays of numbers. *)
Abbreviation vector := (list Q).

(** [np.abs(prediction - y)] *)
Definition absolute_error (prediction y : vector) : option vector :=
  bcast (fun p t => Qabs (p - t)) prediction y.

(** [prediction - y] *)
Definition signed_error (prediction y : vector) : option vector :=
  bcast (fun p t => p - t) prediction y.

(** [np.vstack([a, b]).T] for two 1-D arrays of one length *)
Definition vstack_T (a b : vector) : list (Q * Q) := zip a b.

Definition absolute_error_inverse (prediction nc : loc) (significance : Q)
  : ST (list vector) (list (Q * Q)) :=
  p <-- load prediction ;;
  v <-- load nc ;;
  (* [nc = np.sort(nc)[::-1]]: a fresh sorted array, seen reversed *)
  sorted <-- alloc (np_sort v) ;;
  w <-- load sorted ;;
  let w := reverse w in
  let border := (Qfloor (significance * inject_Z (Z.of_nat (length w) + 1)) - 1)%Z in
  let border := Z.max border 0 in
  d <-- st_lift (py_index w border) ;;
  st_ret (vstack_T (map (fun x => x - d) p) (map (fun x => x + d) p)).

Definition signed_error_inverse (prediction nc : loc) (significance : Q)
  : ST (list vector) (list (Q * Q)) :=
  p <-- load prediction ;;
  v <-- load nc ;;
  sorted <-- alloc (np_sort v) ;;
  w <-- load sorted ;;
  let w := reverse w in
  let upper := Qfloor ((significance / 2) * inject_Z (Z.of_nat (length w) + 1)) in
  let lower := Qfloor ((1 - significance / 2) * inject_Z (Z.of_nat (length w) + 1)) in
  let upper := Z.max upper 0 in
  let lower := Z.min lower (Z.of_nat (length w) - 1) in
  dl <-- st_lift (py_index w lower) ;;
  du <-- st_lift (py_index w upper) ;;
  st_ret (vstack_T (map (fun x => x + dl) p) (map (fun x => x + du) p)).

(* ------------------------------------------------------------------ *)
(** ** Caching adapters *)

(** Model inputs: 2-D arrays of numbers. *)
Abbreviation input := (list (list Q)).

(** [np.array_equal]: same shape and equal elements. *)
Fixpoint row_equal (a b : list Q) : bool :=
  match a, b with
  | [], [] => true
  | x :: a', z :: b' => Qeq_bool x z && row_equal a' b'
  | _, _ => false
  end.

Fixpoint array_equal (a b : input) : bool :=
  match a, b with
  | [], [] => true
  | r :: a', t :: b' => row_equal r t && array_equal a' b'
  | _, _ => false
  end.

Section Adapter.
(** The wrapped estimator: its state, its training (which may raise) and
    its inference method ([predict_proba] or [predict], which may raise),
    returning a fresh array. *)
Context {Model P Y : Type}.
Variable model_fit : Model -> input -> Y -> option Model.
Variable model_infer : Model -> input -> option P.

(** An adapter instance together with the array store.  [n_infer] is a
    ghost counter of the calls to the wrapped model's inference. *)
Record nc_state := NcState {
  model : Model;
  clean : bool;
  last_x : option input;
  last_prediction : option loc;
  arrays : list P;
  n_infer : nat
}.

Definition set_model (m : Model) (s : nc_state) : nc_state :=
  NcState m (clean s) (last_x s) (last_prediction s) (arrays s) (n_infer s).
Definition set_clean (b : bool) (s : nc_state) : nc_state :=
  NcState (model s) b (last_x s) (last_prediction s) (arrays s) (n_infer s).
Definition set_last_x (x : input) (s : nc_state) : nc_state :=
  NcState (model s) (clean s) (Some x) (last_prediction s) (arrays s) (n_infer s).
Definition set_last_prediction (l : loc) (s : nc_state) : nc_state :=
  NcState (model s) (clean s) (last_x s) (Some l) (arrays s) (n_infer s).
Definition set_arrays (h : list P) (s : nc_state) : nc_state :=
  NcState (model s) (clean s) (last_x s) (last_prediction s) h (n_infer s).
Definition tick (s : nc_state) : nc_state :=
  NcState (model s) (clean s) (last_x s) (last_prediction s) (arrays s) (S (n_infer s)).

(** [__init__]: the wrapped model already constructed, over store [h]. *)
Definition nc_init (m : Model) (h : list P) : nc_state :=
  NcState m false None None h 0.

(** running a store operation *)
Definition on_arrays {A : Type} (c : ST (list P) A) : ST nc_state A :=
  fun s => let '(r, h') := c (arrays s) in (r, set_arrays h' s).

(** [self.model.fit(x, y); self.clean = False] *)
Definition nc_fit (x : input) (y : Y) : ST nc_state unit :=
  s <-- st_get ;;
  m <-- st_lift (model_fit (model s) x y) ;;
  st_put (set_clean false (set_model m s)).

(** [self.model.predict_proba(x)] / [self.model.predict(x)] *)
Definition run_model (x : input) : ST nc_state P :=
  s <-- st_get ;;
  st_put (tick s) ;;;
  st_lift (model_infer (model s) x).

(** [not self.clean or self.last_x is None or
     not np.array_equal(self.last_x, x)] *)
Definition must_recompute (s : nc_state) (x : input) : bool :=
  negb (clean s) ||
  match last_x s with
  | None => true
  | Some lx => negb (array_equal lx x)
  end.

Definition nc_underlying_predict (x : input) : ST nc_state loc :=
  s <-- st_get ;;
  (if must_recompute s x then
     st_put (set_last_x x s) ;;;
     p <-- run_model x ;;
     l <-- on_arrays (alloc p) ;;
     s' <-- st_get ;;
     st_put (set_clean true (set_last_prediction l s'))
   else st_ret tt) ;;;
  (* [return self.last_prediction.copy()] *)
  s <-- st_get ;;
  lp <-- st_lift (last_prediction s) ;;
  v <-- on_arrays (load lp) ;;
  on_arrays (alloc v).

(** [calc_nc]: the score function receives the returned array. *)
Definition nc_calc_nc {Yc R : Type}
    (err_func : loc -> Yc -> ST (list P) R) (x : input) (y : Yc)
  : ST nc_state R :=
  prediction <-- nc_underlying_predict x ;;
  on_arrays (err_func prediction y).
End Adapter.

Arguments NcState {Model P}.

Module ProbEstClassifierNc.
Definition fit {Model Y : Type} (model_fit : Model -> input -> Y -> option Model)
  : input -> Y -> ST (@nc_state Model matrix) unit :=
  nc_fit model_fit.
Definition underlying_predict {Model : Type}
    (predict_proba : Model -> input -> option matrix)
  : input -> ST (@nc_state Model matrix) loc :=
  nc_underlying_predict predict_proba.
Definition calc_nc {Model R : Type}
    (predict_proba : Model -> input -> option matrix)
    (err_func : loc -> list nat -> ST (list matrix) R)
  : input -> list nat -> ST (@nc_state Model matrix) R :=
  nc_calc_nc predict_proba err_func.
End ProbEstClassifierNc.

(** A regression score function applied to the array in the store. *)
Definition on_loaded {R : Type} (f : vector -> vector -> option R)
    (prediction : loc) (y : vector) : ST (list vector) R :=
  p <-- load prediction ;;
  st_lift (f p y).

Module RegressorNc.
Definition fit {Model Y : Type} (model_fit : Model -> input -> Y -> option Model)
  : input -> Y -> ST (@nc_state Model vector) unit :=
  nc_fit model_fit.
Definition underlying_predict {Model : Type}
    (predict : Model -> input -> option vector)
  : input -> ST (@nc_state Model vector) loc :=
  nc_underlying_predict predict.
Definition calc_nc {Model R : Type}
    (predict : Model -> input -> option vector)
    (err_func : loc -> vector -> ST (list vector) R)
  : input -> vector -> ST (@nc_state Model vector) R :=
  nc_calc_nc predict err_func.
(** [predict(x, nc, significance)]: [nc] is a caller's array. *)
Definition predict {Model R : Type}
    (model_predict : Model -> input -> option vector)
    (inverse_err_func : loc -> loc -> Q -> ST (list vector) R)
    (x : input) (nc : loc) (significance : Q)
  : ST (@nc_state Model vector) R :=
  prediction <-- underlying_predict model_predict x ;;
  on_arrays (inverse_err_func prediction nc significance).
End RegressorNc.

(* ================================================================== *)
(** * Properties *)

(** Probability rows: every entry a number in [0,1], summing to 1. *)
Definition valid_row (row : list fl) : Prop :=
  exists qs, row = map Fin qs /\ Forall (fun q => 0 <= q <= 1) qs /\
             fold_right Qplus 0 qs == 1.

(** [y[i]] is a column index of row [i] for every sample [i]. *)
Definition labels_in_range (m : matrix) (y : list nat) : Prop :=
  forall i yi, y !! i = Some yi ->
    exists row, m !! i = Some row /\ (yi < length row)%nat.

(** The score [margin] forms from a true-class probability and the maximum
    of the remaining entries: [0.5 - (p - mx) / 2]. *)
Definition margin_score (p mx : fl) : fl :=
  fl_sub (Fin (1 # 2)) (fl_half (fl_sub p mx)).

(** The maximum over the entries of [row] other than column [j]
    ([-inf] when there is none). *)
Definition max_other (row : list fl) (j : nat) : fl :=
  fold_left fl_max (take j row ++ drop (S j) row) NInf.

(** The matrix once [prediction[k + i, y[i]]] holds [-inf] for every [i]. *)
Fixpoint mask_rows (k : nat) (y : list nat) (m : matrix) : matrix :=
  match y with
  | [] => m
  | yi :: y' => mask_rows (S k) y' (alter (insert yi NInf) k m)
  end.

(** A list in descending order. *)
Definition descending (w : list Q) : Prop :=
  forall i j a b, (i <= j)%nat -> w !! i = Some a -> w !! j = Some b -> b <= a.

(** Two values that are the same number. *)
Definition fl_eqv (a b : fl) : Prop :=
  exists qa qb, a = Fin qa /\ b = Fin qb /\ qa == qb.

(** How many scores of a pool lie strictly above [d]. *)
Definition count_above (d : Q) (v : vector) : nat :=
  length (filter (fun x => Qle_bool x d = false) v).

(** How many scores of a pool lie at or above [d]. *)
Definition count_at_least (d : Q) (v : vector) : nat :=
  length (filter (fun x => Qle_bool d x = true) v).

Ltac st_unfold :=
  unfold st_bind, st_ret, st_lift, st_raise, st_get, st_put, load, alloc,
    store in *.

(** ** Broadcasting *)

Lemma bcast_same_length {A B C : Type} (f : A -> B -> C) a b :
  length a = length b -> bcast f a b = Some (zip_with f a b).
Proof. intros H. unfold bcast. by rewrite decide_True. Qed.

(** ** The inverse-probability loop *)

Lemma inverse_probability_loop_spec (m : matrix) (y : list nat) (k : nat) :
  (forall i yi, y !! i = Some yi -> is_Some (entry m (k + i) yi)) ->
  exists prob, inverse_probability_loop m k y = Some prob /\
    length prob = length y /\
    forall i yi, y !! i = Some yi -> prob !! i = entry m (k + i) yi.
Proof.
  revert k. induction y as [|yi y IH]; intros k Hin; simpl.
  - exists []. split_and!; auto. intros i yi' H. done.
  - destruct (Hin 0%nat yi eq_refl) as [v Hv]. rewrite Nat.add_0_r in Hv.
    destruct (IH (S k)) as (prob & Hp & Hl & Hi).
    { intros i yj Hy. replace (S k + i)%nat with (k + S i)%nat by lia.
      apply (Hin (S i)). done. }
    rewrite Hv, Hp. simpl. eexists. split_and!; [done | simpl; lia |].
    intros [|i] yj Hy; simpl in *.
    + injection Hy as <-. by rewrite Nat.add_0_r.
    + rewrite (Hi i yj Hy). f_equal. lia.
Qed.

Lemma labels_entry (m : matrix) (y : list nat) i yi :
  labels_in_range m y -> y !! i = Some yi ->
  exists row v, m !! i = Some row /\ row !! yi = Some v /\ entry m i yi = Some v.
Proof.
  intros Hr Hy. destruct (Hr i yi Hy) as (row & Hm & Hlt).
  destruct (lookup_lt_is_Some_2 row yi Hlt) as [v Hv].
  exists row, v. unfold entry. rewrite Hm. simpl. auto.
Qed.

(** The probability assigned to a class by a valid row. *)
Lemma valid_row_entry (row : list fl) j v :
  valid_row row -> row !! j = Some v -> exists q, v = Fin q /\ 0 <= q <= 1.
Proof.
  intros (qs & -> & Hq & _) Hj.
  apply list_lookup_fmap_Some_1 in Hj as (q & -> & Hq').
  exists q. split; [done|]. rewrite Forall_lookup in Hq. exact (Hq j q Hq').
Qed.

(** ** Rounding to float32 *)

Lemma Q2_pos (k : Z) : 0 < 2 ^ k.
Proof. apply Qpower_0_lt. reflexivity. Qed.

Lemma Q2_plus (j k : Z) : 2 ^ (j + k) == 2 ^ j * 2 ^ k.
Proof. apply Qpower_plus. discriminate. Qed.

Lemma Q2_le (j k : Z) : (j <= k)%Z -> 2 ^ j <= 2 ^ k.
Proof. intros H. apply Qpower_le_compat_l; [done | discriminate]. Qed.

Lemma Q2_le_inv (j k : Z) : 2 ^ j <= 2 ^ k -> (j <= k)%Z.
Proof. intros H. eapply Qpower_le_compat_l_inv; [exact H | reflexivity]. Qed.

Lemma Q2_Z (k : Z) : (0 <= k)%Z -> 2 ^ k == inject_Z (2 ^ k).
Proof. intros H. symmetry. apply (Zpower_Qpower 2 k H). Qed.

Lemma Q2_frac (a b : Z) : (0 <= a)%Z -> (0 <= b)%Z ->
  2 ^ (a - b) == Qmake (2 ^ a) (Z.to_pos (2 ^ b)).
Proof.
  intros Ha Hb. replace (a - b)%Z with (a + - b)%Z by lia.
  rewrite Q2_plus, Qpower_opp, !Q2_Z by lia. rewrite Qmake_Qdiv.
  rewrite Z2Pos.id by (apply Z.pow_pos_nonneg; lia). reflexivity.
Qed.

Lemma flog2_spec (a : Q) : 0 < a -> 2 ^ flog2 a <= a /\ a < 2 ^ (flog2 a + 1).
Proof.
  intros Ha. destruct a as [n d]. unfold flog2. cbn [Qnum Qden].
  assert (Hn : (0 < n)%Z) by (unfold Qlt in Ha; simpl in Ha; lia).
  destruct (Z.log2_spec n Hn) as [Hn1 Hn2].
  destruct (Z.log2_spec (Zpos d) eq_refl) as [Hd1 Hd2].
  set (ln := Z.log2 n) in *. set (ld := Z.log2 (Zpos d)) in *.
  assert (Hln : (0 <= ln)%Z) by apply Z.log2_nonneg.
  assert (Hld : (0 <= ld)%Z) by apply Z.log2_nonneg.
  assert (Hlo : 2 ^ (ln - ld - 1) <= n # d).
  { replace (ln - ld - 1)%Z with (ln - Z.succ ld)%Z by lia.
    rewrite Q2_frac by lia. unfold Qle. simpl.
    rewrite Z2Pos.id by (apply Z.pow_pos_nonneg; lia). nia. }
  assert (Hhi : n # d < 2 ^ (ln - ld + 1)).
  { replace (ln - ld + 1)%Z with (Z.succ ln - ld)%Z by lia.
    rewrite Q2_frac by lia. unfold Qlt. simpl.
    rewrite Z2Pos.id by (apply Z.pow_pos_nonneg; lia). nia. }
  destruct (Qle_bool (2 ^ (ln - ld)) (n # d)) eqn:E.
  - apply Qle_bool_iff in E. split; [done|].
    eapply Qlt_le_trans; [exact Hhi | apply Q2_le; lia].
  - split.
    + replace (ln - ld - 1)%Z with (ln - ld - 1)%Z by lia. exact Hlo.
    + replace (ln - ld - 1 + 1)%Z with (ln - ld)%Z by lia.
      apply Qnot_le_lt. intros H. apply Qle_bool_iff in H. congruence.
Qed.

Lemma rne_le (x : Q) (N : Z) : x <= inject_Z N -> (rne x <= N)%Z.
Proof.
  intros H. unfold rne.
  pose proof (Qfloor_resp_le x (inject_Z N) H) as Hf. rewrite Qfloor_Z in Hf.
  destruct (Z.eq_dec (Qfloor x) N) as [Heq|Hne].
  - assert (Hr : x - inject_Z (Qfloor x) < 1 # 2).
    { rewrite Heq. lra. }
    rewrite (proj1 (Qlt_alt _ _) Hr). lia.
  - destruct (_ ?= _); [destruct (Z.even _)|..]; lia.
Qed.

Lemma rne_ge (x : Q) (N : Z) : inject_Z N <= x -> (N <= rne x)%Z.
Proof.
  intros H. unfold rne.
  pose proof (Qfloor_resp_le (inject_Z N) x H) as Hf. rewrite Qfloor_Z in Hf.
  destruct (_ ?= _); [destruct (Z.even _)|..]; lia.
Qed.

Lemma f32_ulp_pos (a : Q) : 0 < f32_ulp a.
Proof. apply Q2_pos. Qed.

(** The quantum is a whole multiple of the smallest subnormal 2^-149. *)
Lemma f32_ulp_grid (a : Q) :
  f32_ulp a == inject_Z (2 ^ (Z.max (flog2 a) (-126) + 126)) * 2 ^ (-149).
Proof.
  unfold f32_ulp. rewrite <- Q2_Z by lia. rewrite <- Q2_plus.
  f_equiv. lia.
Qed.

Lemma f32_round_nonneg (q : Q) : 0 <= q -> 0 <= f32_round q.
Proof.
  intros Hq. unfold f32_round.
  destruct (Qeq_bool q 0); [apply Qle_refl|].
  rewrite (proj2 (Qle_bool_iff 0 q) Hq).
  pose proof (f32_ulp_pos (Qabs q)) as Hu.
  assert (HR : (0 <= rne (Qabs q / f32_ulp (Qabs q)))%Z).
  { apply rne_ge. apply Qle_shift_div_l; [done|].
    rewrite Qmult_0_l. apply Qabs_nonneg. }
  apply Qmult_le_0_compat; [rewrite <- (Zle_Qle 0); lia | lra].
Qed.

Lemma f32_round_le_1 (q : Q) : 0 <= q <= 1 -> f32_round q <= 1.
Proof.
  intros [Hq0 Hq1]. unfold f32_round.
  destruct (Qeq_bool q 0) eqn:Hz; [discriminate|].
  rewrite (proj2 (Qle_bool_iff 0 q) Hq0).
  assert (Ha : Qabs q == q) by (apply Qabs_pos; done).
  assert (Hpos : 0 < Qabs q).
  { rewrite Ha. apply Qle_lteq in Hq0 as [H|H]; [done|].
    apply Qeq_sym, Qeq_bool_iff in H. congruence. }
  set (a := Qabs q) in *.
  destruct (flog2_spec a Hpos) as [Hf _].
  assert (HF : (flog2 a <= 0)%Z).
  { apply Q2_le_inv. change (2 ^ 0%Z) with 1. lra. }
  set (E := Z.max (flog2 a) (-126)).
  assert (HE : (E <= 0)%Z) by lia.
  assert (Hone : inject_Z (2 ^ (23 - E)) * f32_ulp a == 1).
  { unfold f32_ulp. fold E. rewrite <- Q2_Z by lia. rewrite <- Q2_plus.
    replace (23 - E + (E - 23))%Z with 0%Z by lia. reflexivity. }
  pose proof (f32_ulp_pos a) as Hu.
  assert (HR : (rne (a / f32_ulp a) <= 2 ^ (23 - E))%Z).
  { apply rne_le. apply Qle_shift_div_r; [done|]. lra. }
  rewrite <- Hone. apply Qmult_le_compat_r; [| lra].
  rewrite <- Zle_Qle. exact HR.
Qed.

Lemma f32_round_pos (q : Q) : 2 ^ (-149) <= q -> 0 < f32_round q.
Proof.
  intros Hq. pose proof (Q2_pos (-149)) as H149.
  unfold f32_round.
  destruct (Qeq_bool q 0) eqn:Hz.
  { apply Qeq_bool_iff in Hz. lra. }
  rewrite (proj2 (Qle_bool_iff 0 q)) by lra.
  assert (Ha : Qabs q == q) by (apply Qabs_pos; lra).
  assert (Hpos : 0 < Qabs q) by lra.
  set (a := Qabs q) in *.
  destruct (flog2_spec a Hpos) as [Hf _].
  pose proof (f32_ulp_pos a) as Hu.
  assert (Hua : f32_ulp a <= a).
  { unfold f32_ulp. destruct (Z.le_gt_cases (-126) (flog2 a)).
    - rewrite Z.max_l by done. eapply Qle_trans; [apply Q2_le | exact Hf]. lia.
    - rewrite Z.max_r by lia. replace (-126 - 23)%Z with (-149)%Z by lia. lra. }
  assert (HR : (1 <= rne (a / f32_ulp a))%Z).
  { apply rne_ge. apply Qle_shift_div_l; [done|]. change (inject_Z 1) with 1. lra. }
  apply Qmult_lt_0_compat; [| done]. rewrite <- (Zlt_Qlt 0). lia.
Qed.

Lemma f32_round_grid (q : Q) : exists k : Z, f32_round q == inject_Z k * 2 ^ (-149).
Proof.
  unfold f32_round. destruct (Qeq_bool q 0).
  { exists 0%Z. reflexivity. }
  set (R := rne _). set (M := (2 ^ (Z.max (flog2 (Qabs q)) (-126) + 126))%Z).
  destruct (Qle_bool 0 q).
  - exists (R * M)%Z. rewrite f32_ulp_grid. fold M. rewrite inject_Z_mult. ring.
  - exists (- (R * M))%Z. rewrite f32_ulp_grid. fold M.
    rewrite inject_Z_opp, inject_Z_mult. ring.
Qed.

(** [1 - float32(p)], rounded again, is zero exactly when [float32(p)] is 1. *)
Lemma f32_round_one_minus (p : Q) :
  0 <= p <= 1 -> (f32_round (1 - f32_round p) == 0 <-> f32_round p == 1).
Proof.
  intros Hp. pose proof (f32_round_nonneg p (proj1 Hp)) as H0.
  pose proof (f32_round_le_1 p Hp) as H1.
  set (r := f32_round p) in *. split; intros H.
  - destruct (Qeq_dec r 1) as [|Hne]; [done|]. exfalso.
    destruct (f32_round_grid p) as [k Hk]. fold r in Hk.
    pose proof (Q2_pos (-149)) as H149.
    assert (Hk1 : (k < 2 ^ 149)%Z).
    { assert (Hlt : r < 1) by (apply Qle_lteq in H1 as [|]; [done | contradiction]).
      destruct (Z.lt_ge_cases k (2 ^ 149)) as [|Hge]; [done|]. exfalso.
      rewrite Zle_Qle in Hge.
      assert (Hm : inject_Z (2 ^ 149) * 2 ^ (-149) == 1).
      { rewrite <- Q2_Z by lia. rewrite <- Q2_plus. reflexivity. }
      assert (inject_Z (2 ^ 149) * 2 ^ (-149) <= inject_Z k * 2 ^ (-149))
        by (apply Qmult_le_compat_r; lra).
      lra. }
    assert (Hx : 2 ^ (-149) <= 1 - r).
    { assert (Hm : inject_Z (2 ^ 149) * 2 ^ (-149) == 1).
      { rewrite <- Q2_Z by lia. rewrite <- Q2_plus. reflexivity. }
      assert (Hk' : inject_Z k + 1 <= inject_Z (2 ^ 149)).
      { assert (Hs : inject_Z (k + 1) == inject_Z k + 1)
          by (rewrite inject_Z_plus; reflexivity).
        rewrite <- Hs, <- Zle_Qle. lia. }
      assert (Hkk : (inject_Z k + 1) * 2 ^ (-149) <= inject_Z (2 ^ 149) * 2 ^ (-149))
        by (apply Qmult_le_compat_r; lra).
      assert (Hd : (inject_Z k + 1) * 2 ^ (-149)
                   == inject_Z k * 2 ^ (-149) + 2 ^ (-149)) by ring.
      rewrite Hk. lra. }
    pose proof (f32_round_pos (1 - r) Hx). lra.
  - unfold f32_round at 1.
    replace (Qeq_bool (1 - r) 0) with true; [reflexivity|].
    symmetry. apply Qeq_bool_iff. lra.
Qed.


(** A probability is stored into a float32 array as a number in [0,1]. *)
Lemma f32_unit (q : Q) :
  0 <= q <= 1 -> f32 (Fin q) = Fin (f32_round q) /\ 0 <= f32_round q <= 1.
Proof.
  intros Hq. pose proof (f32_round_nonneg q (proj1 Hq)) as H0.
  pose proof (f32_round_le_1 q Hq) as H1.
  split; [|lra]. unfold f32.
  replace (Qle_bool (2 ^ 128) (Qabs (f32_round q))) with false; [done|].
  symmetry. apply not_true_iff_false. rewrite Qle_bool_iff.
  rewrite Qabs_pos by done. intros H.
  assert (H2 : 1 < 2 ^ 128) by (vm_compute; reflexivity). lra.
Qed.


(** ** C6: [inverse_probability] *)

(** C6 is refuted: the valid probability row [[0.99999999, 0.00000001]]
    with label [0] scores 0 although the true class has probability below
    1: the probability is rounded to 1.0 when it is stored into the
    float32 buffer [prob]. *)
Lemma inverse_probability_spec_counterexample :
  ~ (forall (h : list matrix) (l : loc) (m : matrix) (y : list nat) out h',
       h !! l = Some m -> Forall valid_row m -> labels_in_range m y ->
       inverse_probability l y h = (Some out, h') ->
       forall i yi q r, y !! i = Some yi -> entry m i yi = Some (Fin q) ->
         out !! i = Some (Fin r) -> (r == 0 <-> q == 1)).
Proof.
  intros Hclaim.
  assert (Hv : Forall valid_row [[Fin (99999999 # 100000000); Fin (1 # 100000000)]]).
  { constructor; [| constructor].
    exists [99999999 # 100000000; 1 # 100000000]. split_and!; [done | | done].
    repeat constructor; discriminate. }
  assert (Hr : labels_in_range [[Fin (99999999 # 100000000); Fin (1 # 100000000)]]
                 [0%nat]).
  { intros [|i] yi Hy; simpl in Hy; try discriminate.
    injection Hy as <-. eexists. split; [reflexivity | simpl; lia]. }
  assert (Hrun : inverse_probability 0%nat [0%nat]
    [[[Fin (99999999 # 100000000); Fin (1 # 100000000)]]]
    = (Some [Fin 0], [[[Fin (99999999 # 100000000); Fin (1 # 100000000)]]]))
    by (vm_compute; reflexivity).
  pose proof (Hclaim [[[Fin (99999999 # 100000000); Fin (1 # 100000000)]]] 0%nat
    [[Fin (99999999 # 100000000); Fin (1 # 100000000)]] [0%nat] _ _
    eq_refl Hv Hr Hrun 0%nat 0%nat (99999999 # 100000000) 0 eq_refl eq_refl eq_refl)
    as [H _].
  assert (Hq : ~ (99999999 # 100000000) == 1) by discriminate.
  apply Hq, H. reflexivity.
Qed.

(** C6, amended. For every prediction matrix and in-range label vector
    [y], [inverse_probability] returns for each sample [i] the float32
    value [1 - float32(prediction[i, y[i]])] and leaves the store
    untouched; on valid probability rows each score lies in [0,1] and is
    0 exactly when the true-class probability rounds to 1 in float32,
    as 0.99999999 does; on [[0.7,0.3],[0.2,0.8]] with [y = [0,1]] it
    returns the float32 values 5033165/2^24 and 3355443/2^24. *)
Theorem inverse_probability_spec (h : list matrix) (l : loc) (m : matrix)
    (y : list nat) :
  h !! l = Some m -> labels_in_range m y ->
  (exists out,
    inverse_probability l y h = (Some out, h) /\
    length out = length y /\
    (forall i yi v, y !! i = Some yi -> entry m i yi = Some v ->
       out !! i = Some (f32 (fl_sub (Fin 1) (f32 v)))) /\
    (Forall valid_row m -> forall i yi, y !! i = Some yi ->
       exists q r, entry m i yi = Some (Fin q) /\ out !! i = Some (Fin r) /\
         0 <= r <= 1 /\ (r == 0 <-> f32_round q == 1))) /\
  f32_round (99999999 # 100000000) == 1 /\
  (exists out,
    inverse_probability 0%nat [0%nat; 1%nat]
      [[[Fin (7 # 10); Fin (3 # 10)]; [Fin (2 # 10); Fin (8 # 10)]]]
    = (Some out, [[[Fin (7 # 10); Fin (3 # 10)]; [Fin (2 # 10); Fin (8 # 10)]]]) /\
    Forall2 fl_eqv out [Fin (5033165 # 16777216); Fin (3355443 # 16777216)]).
Proof.
  intros Hl Hr. split_and!; [| vm_compute; reflexivity |].
  2: { exists [Fin (10066330 # 33554432); Fin (13421772 # 67108864)].
       split; [vm_compute; reflexivity|].
       repeat constructor; (do 2 eexists; split_and!; [reflexivity | reflexivity |]);
       reflexivity. }
  destruct (inverse_probability_loop_spec m y 0) as (prob & Hp & Hlen & Hi).
  { intros i yi Hy. destruct (labels_entry m y i yi Hr Hy) as (? & v & _ & _ & He).
    simpl. rewrite He. eauto. }
  exists (map (fun p => f32 (fl_sub (Fin 1) p)) (map f32 prob)).
  unfold inverse_probability. st_unfold. rewrite Hl, Hp.
  split_and!; [done | by rewrite !length_map |..].
  - intros i yi v Hy He. rewrite !list_lookup_fmap, (Hi i yi Hy). simpl.
    by rewrite He.
  - intros Hvalid i yi Hy.
    destruct (labels_entry m y i yi Hr Hy) as (row & v & Hm & Hv & He).
    assert (Hrow : valid_row row).
    { rewrite Forall_lookup in Hvalid. eauto. }
    destruct (valid_row_entry row yi v Hrow Hv) as (q & -> & Hq).
    destruct (f32_unit q Hq) as [Hf Hf01].
    assert (H1q : 0 <= 1 - f32_round q <= 1) by lra.
    destruct (f32_unit (1 - f32_round q) H1q) as [Hg Hg01].
    exists q, (f32_round (1 - f32_round q)). split_and!; [done | | lra | lra |].
    + rewrite !list_lookup_fmap, (Hi i yi Hy). cbn -[f32]. rewrite He.
      cbn -[f32]. rewrite Hf. cbn -[f32]. by rewrite Hg.
    + apply f32_round_one_minus. done.
Qed.

(** C6 (amended) at a concrete input. *)
Lemma inverse_probability_spec_witness :
  labels_in_range [[Fin (7 # 10); Fin (3 # 10)]; [Fin (2 # 10); Fin (8 # 10)]]
    [0%nat; 1%nat] /\
  exists out,
    inverse_probability 0%nat [0%nat; 1%nat]
      [[[Fin (7 # 10); Fin (3 # 10)]; [Fin (2 # 10); Fin (8 # 10)]]]
    = (Some out, [[[Fin (7 # 10); Fin (3 # 10)]; [Fin (2 # 10); Fin (8 # 10)]]]).
Proof.
  assert (Hr : labels_in_range
    [[Fin (7 # 10); Fin (3 # 10)]; [Fin (2 # 10); Fin (8 # 10)]] [0%nat; 1%nat]).
  { intros [|[|i]] yi Hy; simpl in Hy; try discriminate;
      injection Hy as <-; (eexists; split; [reflexivity | simpl; lia]). }
  split; [exact Hr |].
  destruct (inverse_probability_spec
    [[[Fin (7 # 10); Fin (3 # 10)]; [Fin (2 # 10); Fin (8 # 10)]]] 0%nat
    [[Fin (7 # 10); Fin (3 # 10)]; [Fin (2 # 10); Fin (8 # 10)]]
    [0%nat; 1%nat] eq_refl Hr) as [(out & Hout & _) _].
  exists out. exact Hout.
Defined.

(** ** C8: [absolute_error] and [signed_error] *)

(** C8. For equal-length arrays [p] and [y], [absolute_error p y] and
    [absolute_error y p] agree elementwise and are nonnegative, and
    [signed_error p y] is the elementwise negation of [signed_error y p]. *)
Theorem error_function_laws (p y : vector) :
  length p = length y ->
  (exists a b, absolute_error p y = Some a /\ absolute_error y p = Some b /\
     Forall2 Qeq a b /\ Forall (fun e => 0 <= e) a) /\
  (exists c d, signed_error p y = Some c /\ signed_error y p = Some d /\
     Forall2 (fun u v => u == - v) c d).
Proof.
  intros Hlen. unfold absolute_error, signed_error.
  rewrite !bcast_same_length by done.
  split; do 2 eexists; (split; [reflexivity|]); (split; [reflexivity|]).
  - revert y Hlen. induction p as [|a p IH]; intros [|b y] Hlen;
      cbn [length zip_with] in *; try discriminate; [split; constructor |].
    injection Hlen as Hlen. destruct (IH y Hlen) as [H1 H2].
    split; constructor; auto.
    + transitivity (Qabs (- (b - a))); [apply Qabs_wd; ring | apply Qabs_opp].
    + apply Qabs_nonneg.
  - revert y Hlen. induction p as [|a p IH]; intros [|b y] Hlen;
      cbn [length zip_with] in *; try discriminate; [constructor |].
    injection Hlen as Hlen. constructor; [ring | auto].
Qed.

(** C8 at a concrete input. *)
Lemma error_function_laws_witness :
  length [1; 2] = length [3; -4] /\
  exists a, absolute_error [1; 2] [3; -4] = Some a.
Proof.
  split; [reflexivity |].
  destruct (error_function_laws [1; 2] [3; -4] eq_refl)
    as [(a & _ & Ha & _) _].
  exists a. exact Ha.
Defined.

(** ** The in-place loop of [margin] *)

Lemma length_mask_rows (k : nat) (y : list nat) (m : matrix) : length (mask_rows k y m) = length m.
Proof.
  revert k m. induction y as [|yi y IH]; intros k m; simpl; [done|].
  by rewrite IH, length_alter.
Qed.

Lemma mask_rows_lookup_lt (k : nat) (y : list nat) (m : matrix) (r : nat) :
  (r < k)%nat -> mask_rows k y m !! r = m !! r.
Proof.
  revert k m. induction y as [|yi y IH]; intros k m Hr; simpl; [done|].
  rewrite IH by lia. apply list_lookup_alter_ne. lia.
Qed.

Lemma mask_rows_lookup (k : nat) (y : list nat) (m : matrix) (i : nat) :
  mask_rows k y m !! (k + i)%nat =
  match y !! i with
  | Some yi => insert yi NInf <$> m !! (k + i)%nat
  | None => m !! (k + i)%nat
  end.
Proof.
  revert k m i. induction y as [|yi y IH]; intros k m i; simpl; [done|].
  destruct i as [|i]; simpl.
  - rewrite Nat.add_0_r, mask_rows_lookup_lt by lia.
    apply list_lookup_alter_eq.
  - replace (k + S i)%nat with (S k + i)%nat by lia. rewrite IH.
    rewrite !list_lookup_alter_ne by lia. done.
Qed.

Lemma margin_loop_spec (l : loc) (y : list nat) :
  forall (k : nat) (h : list matrix) (m : matrix),
  h !! l = Some m ->
  (forall i yi, y !! i = Some yi ->
     exists row, m !! (k + i)%nat = Some row /\ (yi < length row)%nat) ->
  exists prob,
    margin_loop l k y h = (Some prob, <[l := mask_rows k y m]> h) /\
    length prob = length y /\
    forall i yi, y !! i = Some yi -> prob !! i = f32 <$> entry m (k + i)%nat yi.
Proof.
  induction y as [|yi y IH]; intros k h m Hl Hin; simpl.
  - exists []. st_unfold. rewrite list_insert_id by done.
    split_and!; [done | done |]. intros i yi Hy. done.
  - destruct (Hin 0%nat yi eq_refl) as (row & Hrow & Hlt).
    rewrite Nat.add_0_r in Hrow.
    destruct (lookup_lt_is_Some_2 row yi Hlt) as [v Hv].
    assert (Hlen : (l < length h)%nat) by (eapply lookup_lt_Some; eauto).
    set (m1 := <[k := <[yi := NInf]> row]> m).
    assert (Hm1 : m1 = alter (insert yi NInf) k m).
    { unfold m1. apply list_eq. intros r.
      destruct (decide (r = k)) as [->|Hne].
      - rewrite list_lookup_alter_eq, Hrow. simpl.
        apply list_lookup_insert_eq. eapply lookup_lt_Some; eauto.
      - rewrite list_lookup_insert_ne, list_lookup_alter_ne by lia. done. }
    destruct (IH (S k) (<[l := m1]> h) m1) as (prob & Hp & Hplen & Hpi).
    { apply list_lookup_insert_eq. done. }
    { intros i yj Hy. unfold m1. rewrite list_lookup_insert_ne by lia.
      replace (S k + i)%nat with (k + S i)%nat by lia. apply (Hin (S i)). done. }
    exists (f32 v :: prob). st_unfold. rewrite Hl. simpl. rewrite Hrow. simpl.
    rewrite Hv. simpl. rewrite decide_True by done. fold m1. rewrite Hp.
    rewrite list_insert_insert_eq. rewrite <- Hm1. split_and!; [done | simpl; lia |].
    intros [|i] yj Hy; simpl in Hy.
    + injection Hy as <-. unfold entry. rewrite Nat.add_0_r, Hrow. simpl.
      by rewrite Hv.
    + change ((f32 v :: prob) !! S i) with (prob !! i).
      rewrite (Hpi i yj Hy). unfold entry, m1.
      rewrite list_lookup_insert_ne by lia.
      replace (S k + i)%nat with (k + S i)%nat by lia. done.
Qed.

(** ** Row maxima *)

Lemma fl_max_NInf_l (a : fl) : fl_max NInf a = a.
Proof. by destruct a. Qed.

Lemma fl_max_NInf_r (a : fl) : fl_max a NInf = a.
Proof. by destruct a. Qed.

(** Overwriting column [j] with [-inf] leaves the maximum of the others. *)
Lemma np_max_row_masked (row : list fl) (j : nat) :
  (j < length row)%nat ->
  np_max_row (<[j := NInf]> row) = Some (max_other row j).
Proof.
  intros Hj. rewrite insert_take_drop by done. unfold max_other.
  destruct j as [|j]; [done|].
  destruct row as [|x r]; simpl in *; [lia|].
  replace (match x with NaN => NaN | _ => x end) with x by (by destruct x).
  rewrite !fold_left_app. simpl. by rewrite fl_max_NInf_r.
Qed.

Lemma np_max_axis1_spec (m : matrix) :
  (forall i row, m !! i = Some row -> row <> []) ->
  exists mx, np_max_axis1 m = Some mx /\ length mx = length m /\
    forall i row, m !! i = Some row -> mx !! i = np_max_row row.
Proof.
  induction m as [|row m IH]; intros Hne; simpl.
  - exists []. split_and!; [done | done |]. intros i row H. done.
  - destruct IH as (mx & Hmx & Hlen & Hi).
    { intros i r Hr. apply (Hne (S i)). done. }
    destruct row as [|x r]; [by destruct (Hne 0%nat [] eq_refl)|].
    rewrite Hmx. simpl. eexists. split_and!; [done | simpl; lia |].
    intros [|i] row' Hr; simpl in Hr.
    + by injection Hr as <-.
    + change ((fold_left fl_max r x :: mx) !! S i) with (mx !! i). auto.
Qed.

Lemma lookup_zip_with_eq {A B C : Type} (f : A -> B -> C) a b i x z :
  a !! i = Some x -> b !! i = Some z -> zip_with f a b !! i = Some (f x z).
Proof. intros Ha Hb. rewrite lookup_zip_with, Ha, Hb. done. Qed.

(** ** A full run of [margin] *)

Lemma mask_rows_0_lookup (y : list nat) (m : matrix) i yi row :
  y !! i = Some yi -> m !! i = Some row ->
  mask_rows 0 y m !! i = Some (<[yi := NInf]> row).
Proof.
  intros Hy Hm. pose proof (mask_rows_lookup 0 y m i) as H. simpl in H.
  by rewrite H, Hy, Hm.
Qed.

Lemma margin_result (h : list matrix) (l : loc) (m : matrix) (y : list nat) :
  h !! l = Some m -> length m = length y -> labels_in_range m y ->
  exists prob mx,
    margin l y h =
      (Some (map (fl_sub (Fin (1 # 2))) (map fl_half (zip_with fl_sub prob mx))),
       <[l := mask_rows 0 y m]> h) /\
    length prob = length y /\ length mx = length y /\
    forall i yi row, y !! i = Some yi -> m !! i = Some row ->
      exists v, row !! yi = Some v /\ prob !! i = Some (f32 v) /\
                mx !! i = Some (max_other row yi).
Proof.
  intros Hl Hlen Hr.
  assert (Hlt : (l < length h)%nat) by (eapply lookup_lt_Some; eauto).
  destruct (margin_loop_spec l y 0 h m Hl) as (prob & Hloop & Hplen & Hp).
  { intros i yi Hy. simpl. exact (Hr i yi Hy). }
  set (M := mask_rows 0 y m).
  assert (HM : forall i row', M !! i = Some row' ->
             exists yi row, y !! i = Some yi /\ m !! i = Some row /\
               (yi < length row)%nat /\ row' = <[yi := NInf]> row).
  { intros i row' Hi.
    assert (Hi' : (i < length y)%nat).
    { rewrite <- Hlen, <- (length_mask_rows 0 y m). eapply lookup_lt_Some; eauto. }
    destruct (lookup_lt_is_Some_2 y i Hi') as [yi Hy].
    destruct (Hr i yi Hy) as (row & Hm & Hyi).
    unfold M in Hi. rewrite (mask_rows_0_lookup y m i yi row Hy Hm) in Hi.
    injection Hi as <-. eauto 10. }
  destruct (np_max_axis1_spec M) as (mx & Hmx & Hmxlen & Hmxi).
  { intros i row' Hi. destruct (HM i row' Hi) as (yi & row & _ & _ & Hyi & ->).
    intros Hnil. apply (f_equal length) in Hnil.
    rewrite length_insert in Hnil. simpl in Hnil. lia. }
  assert (HmxL : length mx = length y).
  { rewrite Hmxlen. unfold M. by rewrite length_mask_rows. }
  exists prob, mx. split_and!; [| done | done |].
  - unfold margin. unfold st_bind at 1. rewrite Hloop.
    unfold st_bind. st_unfold. rewrite list_lookup_insert_eq by done.
    fold M. rewrite Hmx. rewrite bcast_same_length by lia. done.
  - intros i yi row Hy Hm.
    destruct (Hr i yi Hy) as (row0 & Hm0 & Hyi). rewrite Hm in Hm0.
    injection Hm0 as <-.
    destruct (lookup_lt_is_Some_2 row yi Hyi) as [v Hv].
    exists v. split_and!; [done | |].
    + rewrite (Hp i yi Hy). unfold entry. simpl. rewrite Hm. simpl. by rewrite Hv.
    + rewrite (Hmxi i (<[yi := NInf]> row)).
      * by apply np_max_row_masked.
      * unfold M. by apply mask_rows_0_lookup.
Qed.

(** ** C3: [margin] *)

(** C3 is refuted: on the row [[0.7, 0.3]] with label [0] the score
    [0.5 - (0.7 - 0.3) / 2 = 0.3] computed from the original entry is not
    what [margin] returns, because the true-class probability is first
    rounded to float32 when it is stored into [prob]; the result is
    201326596/671088640, about 0.3000000060. *)
Lemma margin_spec_counterexample :
  ~ (forall (h : list matrix) (l : loc) (m : matrix) (y : list nat) out h',
       h !! l = Some m -> length m = length y -> labels_in_range m y ->
       margin l y h = (Some out, h') ->
       forall i yi row v, y !! i = Some yi -> m !! i = Some row ->
         row !! yi = Some v ->
         exists w, out !! i = Some w /\ fl_eqv w (margin_score v (max_other row yi))).
Proof.
  intros Hclaim.
  assert (Hr : labels_in_range [[Fin (7 # 10); Fin (3 # 10)]] [0%nat]).
  { intros [|i] yi Hy; simpl in Hy; try discriminate.
    injection Hy as <-. eexists. split; [reflexivity | simpl; lia]. }
  assert (Hrun : margin 0%nat [0%nat] [[[Fin (7 # 10); Fin (3 # 10)]]]
    = (Some [Fin (201326596 # 671088640)], [[[NInf; Fin (3 # 10)]]]))
    by (vm_compute; reflexivity).
  destruct (Hclaim [[[Fin (7 # 10); Fin (3 # 10)]]] 0%nat
    [[Fin (7 # 10); Fin (3 # 10)]] [0%nat] _ _ eq_refl eq_refl Hr Hrun
    0%nat 0%nat [Fin (7 # 10); Fin (3 # 10)] (Fin (7 # 10)) eq_refl eq_refl eq_refl)
    as (w & Hw & qa & qb & Ha & Hb & Hq).
  simpl in Hw. injection Hw as <-. injection Ha as <-.
  vm_compute in Hb. injection Hb as <-.
  vm_compute in Hq. discriminate.
Qed.

(** C3, amended. For every prediction matrix in the store and every in-range label
    vector [y] (one label per row), [margin] returns for each sample [i]
    [0.5 - (p - mx) / 2], where [p] is the original [prediction[i, y[i]]]
    as stored into the float32 buffer [prob] (rounded to float32) and
    [mx] the maximum of the other entries of row [i]; as a side
    effect exactly the entries [prediction[i, y[i]]] become [-inf] and
    nothing else in the store changes. *)
Theorem margin_spec (h : list matrix) (l : loc) (m : matrix) (y : list nat) :
  h !! l = Some m -> length m = length y -> labels_in_range m y ->
  exists out m',
    margin l y h = (Some out, <[l := m']> h) /\
    length out = length y /\
    (forall i yi row, y !! i = Some yi -> m !! i = Some row ->
       exists v, row !! yi = Some v /\
         out !! i = Some (margin_score (f32 v) (max_other row yi))) /\
    length m' = length m /\
    (forall i row, m !! i = Some row ->
       exists row', m' !! i = Some row' /\ length row' = length row /\
         forall j v, row !! j = Some v ->
           row' !! j = Some (if decide (y !! i = Some j) then NInf else v)).
Proof.
  intros Hl Hlen Hr.
  destruct (margin_result h l m y Hl Hlen Hr)
    as (prob & mx & Hrun & Hplen & Hmxlen & Hi).
  eexists _, (mask_rows 0 y m). split_and!.
  - exact Hrun.
  - rewrite !length_map, length_zip_with. lia.
  - intros i yi row Hy Hm. destruct (Hi i yi row Hy Hm) as (v & Hv & Hp & Hmx).
    exists v. split; [done|].
    rewrite !list_lookup_fmap, (lookup_zip_with_eq _ _ _ _ _ _ Hp Hmx). done.
  - apply length_mask_rows.
  - intros i row Hm.
    assert (Hi' : (i < length y)%nat) by (rewrite <- Hlen; eapply lookup_lt_Some; eauto).
    destruct (lookup_lt_is_Some_2 y i Hi') as [yi Hy].
    exists (<[yi := NInf]> row). split_and!.
    + by apply mask_rows_0_lookup.
    + apply length_insert.
    + intros j v Hj. rewrite Hy.
      destruct (decide (yi = j)) as [->|Hne].
      * rewrite decide_True by done. apply list_lookup_insert_eq.
        eapply lookup_lt_Some; eauto.
      * rewrite decide_False by congruence.
        by rewrite list_lookup_insert_ne.
Qed.

(** C3 (amended) at a concrete input. *)
Lemma margin_spec_witness :
  length [[Fin (7 # 10); Fin (3 # 10)]] = length [0%nat] /\
  labels_in_range [[Fin (7 # 10); Fin (3 # 10)]] [0%nat] /\
  exists out m',
    margin 0%nat [0%nat] [[[Fin (7 # 10); Fin (3 # 10)]]] = (Some out, [m']).
Proof.
  assert (Hr : labels_in_range [[Fin (7 # 10); Fin (3 # 10)]] [0%nat]).
  { intros [|i] yi Hy; simpl in Hy; try discriminate.
    injection Hy as <-. eexists. split; [reflexivity | simpl; lia]. }
  split; [reflexivity|]. split; [exact Hr|].
  destruct (margin_spec [[[Fin (7 # 10); Fin (3 # 10)]]] 0%nat
    [[Fin (7 # 10); Fin (3 # 10)]] [0%nat] eq_refl eq_refl Hr)
    as (out & m' & Hrun & _).
  exists out, m'. exact Hrun.
Defined.

(** ** C4: range of [margin] *)

Lemma fold_max_unit_interval (qs : list Q) (acc : fl) :
  Forall (fun q => 0 <= q <= 1) qs ->
  (acc = NInf \/ exists z, acc = Fin z /\ 0 <= z <= 1) ->
  (qs <> [] \/ acc <> NInf) ->
  exists z, fold_left fl_max (map Fin qs) acc = Fin z /\ 0 <= z <= 1.
Proof.
  revert acc. induction qs as [|q qs IH]; intros acc Hqs Hacc Hne; simpl.
  - destruct Hne as [Hne|Hne]; [done|].
    destruct Hacc as [->|(z & -> & Hz)]; [done | eauto].
  - inversion Hqs as [|? ? Hq Hqs']; subst. apply IH; [done | | right].
    + right. destruct Hacc as [->|(z & -> & Hz)]; simpl; [eauto|].
      destruct (Qle_bool z q); eauto.
    + destruct Hacc as [->|(z & -> & Hz)]; simpl; [done|].
      destruct (Qle_bool z q); done.
Qed.

Lemma max_other_unit_interval (row : list fl) (j : nat) :
  valid_row row -> (2 <= length row)%nat -> (j < length row)%nat ->
  exists z, max_other row j = Fin z /\ 0 <= z <= 1.
Proof.
  intros (qs & -> & Hqs & _) H2 Hj. rewrite length_map in H2, Hj.
  unfold max_other. rewrite <- fmap_take, <- fmap_drop, <- fmap_app.
  apply fold_max_unit_interval; [| by left | left].
  - apply Forall_app. split; [by apply Forall_take | by apply Forall_drop].
  - intros Hnil. apply (f_equal length) in Hnil.
    rewrite length_app, length_take, length_drop in Hnil. simpl in Hnil. lia.
Qed.

(** C4 is refuted: the valid probability row [[0, 1]] with label [0]
    gets margin score [1], outside [[-0.5, 0.5]]. *)
Lemma margin_range_counterexample :
  ~ (forall (h : list matrix) (l : loc) (m : matrix) (y : list nat) out h',
       h !! l = Some m -> Forall valid_row m -> labels_in_range m y ->
       margin l y h = (Some out, h') ->
       Forall (fun v => exists q, v = Fin q /\ - (1 # 2) <= q <= 1 # 2) out).
Proof.
  intros Hclaim.
  assert (Hv : Forall valid_row [[Fin 0; Fin 1]]).
  { constructor; [| constructor]. exists [0; 1]. split_and!; [done | | done].
    repeat constructor; discriminate. }
  assert (Hr : labels_in_range [[Fin 0; Fin 1]] [0%nat]).
  { intros [|i] yi Hy; simpl in Hy; try discriminate.
    injection Hy as <-. eexists. split; [reflexivity | simpl; lia]. }
  specialize (Hclaim [[[Fin 0; Fin 1]]] 0%nat [[Fin 0; Fin 1]] [0%nat]
    [Fin (4 # 4)] [[[NInf; Fin 1]]] eq_refl Hv Hr eq_refl).
  inversion Hclaim as [|? ? (q & Hq & _ & Hle)]; subst.
  injection Hq as <-. lra.
Qed.

(** C4, amended. For every prediction matrix whose rows are valid
    probability distributions over at least two classes and every
    in-range label vector (one label per row), every score returned by
    [margin] lies in [[0, 1]]. *)
Theorem margin_range (h : list matrix) (l : loc) (m : matrix) (y : list nat) :
  h !! l = Some m -> length m = length y -> labels_in_range m y ->
  Forall valid_row m -> Forall (fun row => (2 <= length row)%nat) m ->
  exists out h', margin l y h = (Some out, h') /\
    Forall (fun v => exists q, v = Fin q /\ 0 <= q <= 1) out.
Proof.
  intros Hl Hlen Hr Hvalid H2.
  destruct (margin_result h l m y Hl Hlen Hr)
    as (prob & mx & Hrun & Hplen & Hmxlen & Hi).
  do 2 eexists. split; [exact Hrun|].
  apply Forall_lookup. intros i v Hv.
  assert (Hi' : (i < length y)%nat).
  { apply lookup_lt_Some in Hv. rewrite !length_map, length_zip_with in Hv. lia. }
  destruct (lookup_lt_is_Some_2 y i Hi') as [yi Hy].
  destruct (Hr i yi Hy) as (row & Hm & Hyi).
  destruct (Hi i yi row Hy Hm) as (p & Hpv & Hp & Hmx).
  rewrite Forall_lookup in Hvalid, H2.
  destruct (valid_row_entry row yi p (Hvalid i row Hm) Hpv) as (q & -> & Hq).
  destruct (max_other_unit_interval row yi (Hvalid i row Hm) (H2 i row Hm) Hyi)
    as (z & Hz & Hz01).
  rewrite Hz in Hmx.
  destruct (f32_unit q Hq) as [Hf Hf01]. rewrite Hf in Hp.
  rewrite !list_lookup_fmap, (lookup_zip_with_eq _ _ _ _ _ _ Hp Hmx) in Hv.
  simpl in Hv. injection Hv as <-.
  eexists. split; [reflexivity|]. unfold Qdiv. change (/ 2) with (1 # 2). lra.
Qed.

(** C4 (amended) at a concrete input. *)
Lemma margin_range_witness :
  Forall valid_row [[Fin 0; Fin 1]] /\
  exists out h', margin 0%nat [0%nat] [[[Fin 0; Fin 1]]] = (Some out, h') /\
    Forall (fun v => exists q, v = Fin q /\ 0 <= q <= 1) out.
Proof.
  assert (Hv : Forall valid_row [[Fin 0; Fin 1]]).
  { constructor; [| constructor]. exists [0; 1]. split_and!; [done | | done].
    repeat constructor; discriminate. }
  assert (Hr : labels_in_range [[Fin 0; Fin 1]] [0%nat]).
  { intros [|i] yi Hy; simpl in Hy; try discriminate.
    injection Hy as <-. eexists. split; [reflexivity | simpl; lia]. }
  split; [exact Hv|].
  apply (margin_range [[[Fin 0; Fin 1]]] 0%nat [[Fin 0; Fin 1]] [0%nat]
    eq_refl eq_refl Hr Hv).
  repeat constructor.
Defined.

(** ** Sorting and rank arithmetic of the inverse functions *)

Lemma QLeb_trans : Transitive (fun x y => is_true (QLeb.leb x y)).
Proof.
  intros x y z. unfold is_true, QLeb.leb. rewrite !Qle_bool_iff.
  apply Qle_trans.
Qed.

Lemma StronglySorted_lookup {A : Type} (R : A -> A -> Prop) (l : list A) :
  StronglySorted R l ->
  forall i j a b, (i < j)%nat -> l !! i = Some a -> l !! j = Some b -> R a b.
Proof.
  induction 1 as [|x l Hs IH Hall]; intros i j a b Hij Hi Hj; [done|].
  destruct j as [|j]; [lia|]. simpl in Hj.
  destruct i as [|i]; simpl in Hi.
  - injection Hi as <-. rewrite Forall_forall in Hall. apply Hall.
    by apply list_elem_of_lookup_2 with j.
  - apply (IH i j); [lia | done | done].
Qed.

Lemma np_sort_descending (v : list Q) : descending (reverse (np_sort v)).
Proof.
  intros i j a b Hij Ha Hb.
  apply reverse_lookup_Some in Ha as [Ha Hi].
  apply reverse_lookup_Some in Hb as [Hb Hj].
  destruct (decide (i = j)) as [->|Hne].
  - rewrite Ha in Hb. injection Hb as ->. apply Qle_refl.
  - pose proof (QSort.StronglySorted_sort v QLeb_trans) as Hs.
    unfold np_sort in *.
    assert (Hr : is_true (QLeb.leb b a)).
    { apply (StronglySorted_lookup _ _ Hs (length (QSort.sort v) - S j)
        (length (QSort.sort v) - S i)); [lia | done | done]. }
    unfold is_true, QLeb.leb in Hr. by apply Qle_bool_iff.
Qed.

Lemma np_sort_permutation (v : list Q) : Permutation v (reverse (np_sort v)).
Proof.
  unfold np_sort. etransitivity; [apply QSort.Permuted_sort|].
  unfold reverse. rewrite <- rev_alt. apply Permutation_rev.
Qed.

Lemma length_np_sort (v : list Q) : length (reverse (np_sort v)) = length v.
Proof.
  rewrite length_reverse. symmetry. apply Permutation_length.
  apply QSort.Permuted_sort.
Qed.

Lemma floor_lt (x : Q) (k : Z) : x < inject_Z k -> (Qfloor x < k)%Z.
Proof.
  intros H. rewrite Zlt_Qlt. eapply Qle_lt_trans; [apply Qfloor_le | exact H].
Qed.

Lemma floor_nonneg (x : Q) : 0 <= x -> (0 <= Qfloor x)%Z.
Proof. intros H. change 0%Z with (Qfloor 0). by apply Qfloor_resp_le. Qed.

Lemma inject_Z_succ_pos (n : nat) : 0 < inject_Z (Z.of_nat n + 1).
Proof. rewrite <- (Zlt_Qlt 0). lia. Qed.

Lemma py_index_nonneg {A : Type} (l : list A) (i : Z) :
  (0 <= i)%Z -> py_index l i = l !! Z.to_nat i.
Proof. intros H. unfold py_index. by rewrite (proj2 (Z.leb_le 0 i) H). Qed.

Lemma lookup_alloc_fresh {A : Type} (h : list A) (v : A) :
  (h ++ [v]) !! length h = Some v.
Proof. by rewrite lookup_app_r, Nat.sub_diag by lia. Qed.

Lemma vstack_T_map (p : vector) (f g : Q -> Q) :
  vstack_T (map f p) (map g p) = map (fun x => (f x, g x)) p.
Proof. unfold vstack_T. induction p as [|x p IH]; simpl; [done|]. by rewrite IH. Qed.

(** The border rank of [absolute_error_inverse] is a valid index. *)
Lemma border_lt (n : nat) (s : Q) :
  (1 <= n)%nat -> 0 < s < 1 ->
  (Z.to_nat (Z.max (Qfloor (s * inject_Z (Z.of_nat n + 1)) - 1) 0) < n)%nat.
Proof.
  intros Hn Hs. pose proof (inject_Z_succ_pos n) as HN.
  assert (Hf : (Qfloor (s * inject_Z (Z.of_nat n + 1)) < Z.of_nat n + 1)%Z).
  { apply floor_lt. set (N := inject_Z (Z.of_nat n + 1)) in *. nra. }
  lia.
Qed.

(** ** C2: [absolute_error_inverse] *)

(** C2. For every non-empty calibration pool [nc] of size [n] and
    significance [s] in (0,1), [absolute_error_inverse] sorts [nc] in
    descending order, selects the border index
    [max(floor(s * (n + 1)) - 1, 0)] (a valid index), and returns for
    every sample the pair [(prediction[i] - nc[border],
    prediction[i] + nc[border])], whose width is [2 * nc[border]]; with
    [nc = [1,2,3,4,5]] and [s = 0.4] the border index is 1, the
    half-width 4 and the bounds are [prediction -/+ 4]. *)
Theorem absolute_error_inverse_spec (h : list vector) (lp ln : loc)
    (p nc : vector) (s : Q) :
  h !! lp = Some p -> h !! ln = Some nc -> nc <> [] -> 0 < s < 1 ->
  let sorted := reverse (np_sort nc) in
  let border :=
    Z.to_nat (Z.max (Qfloor (s * inject_Z (Z.of_nat (length nc) + 1)) - 1) 0) in
  (border < length nc)%nat /\ Permutation nc sorted /\ descending sorted /\
  (exists d, sorted !! border = Some d /\
    absolute_error_inverse lp ln s h =
      (Some (map (fun x => (x - d, x + d)) p), h ++ [np_sort nc]) /\
    Forall (fun b => b.2 - b.1 == 2 * d) (map (fun x => (x - d, x + d)) p)) /\
  (forall (h' : list vector) (lp' ln' : loc) (p' : vector),
     h' !! lp' = Some p' -> h' !! ln' = Some [1; 2; 3; 4; 5] ->
     Z.to_nat (Z.max (Qfloor ((2 # 5) * inject_Z (Z.of_nat 5 + 1)) - 1) 0) = 1%nat /\
     reverse (np_sort [1; 2; 3; 4; 5]) !! 1%nat = Some 4 /\
     absolute_error_inverse lp' ln' (2 # 5) h' =
       (Some (map (fun x => (x - 4, x + 4)) p'), h' ++ [np_sort [1; 2; 3; 4; 5]])).
Proof.
  intros Hp Hnc Hne Hs sorted border.
  assert (Hb : (border < length nc)%nat).
  { apply border_lt; [destruct nc; [done | simpl; lia] | done]. }
  split_and!; [done | apply np_sort_permutation | apply np_sort_descending | |].
  - assert (Hbs : (border < length sorted)%nat) by (unfold sorted; by rewrite length_np_sort).
    destruct (lookup_lt_is_Some_2 sorted border Hbs) as [d Hd].
    exists d. split_and!; [done | |].
    + unfold absolute_error_inverse. st_unfold. rewrite Hp, Hnc.
      rewrite lookup_alloc_fresh. fold sorted.
      replace (length sorted) with (length nc)
        by (unfold sorted; by rewrite length_np_sort).
      rewrite py_index_nonneg by lia. fold border.
      rewrite Hd. by rewrite vstack_T_map.
    + apply Forall_forall. intros b Hin.
      apply list_elem_of_fmap in Hin as (x & -> & _). simpl. ring.
  - intros h' lp' ln' p' Hp' Hnc'. split_and!; [reflexivity | reflexivity |].
    unfold absolute_error_inverse. st_unfold. rewrite Hp', Hnc'.
    rewrite lookup_alloc_fresh. simpl. by rewrite vstack_T_map.
Qed.

(** C2 at a concrete input. *)
Lemma absolute_error_inverse_spec_witness :
  [1; 2; 3; 4; 5] <> [] /\ 0 < 2 # 5 < 1 /\
  exists out h', absolute_error_inverse 0%nat 1%nat (2 # 5)
                   [[10; 20]; [1; 2; 3; 4; 5]] = (Some out, h').
Proof.
  assert (Hne : [1; 2; 3; 4; 5] <> []) by discriminate.
  assert (Hs : 0 < 2 # 5 < 1) by (split; reflexivity).
  split; [exact Hne|]. split; [exact Hs|].
  destruct (absolute_error_inverse_spec [[10; 20]; [1; 2; 3; 4; 5]] 0%nat 1%nat
    [10; 20] [1; 2; 3; 4; 5] (2 # 5) eq_refl eq_refl Hne Hs)
    as (_ & _ & _ & (d & _ & Hrun & _) & _).
  do 2 eexists. exact Hrun.
Defined.

(** ** [signed_error_inverse] *)

(** The two ranks of [signed_error_inverse] are valid indices and the
    upper-bound rank does not exceed the lower-bound rank. *)
Lemma signed_ranks (n : nat) (s : Q) :
  (1 <= n)%nat -> 0 < s < 1 ->
  let upper := Z.max (Qfloor ((s / 2) * inject_Z (Z.of_nat n + 1))) 0 in
  let lower := Z.min (Qfloor ((1 - s / 2) * inject_Z (Z.of_nat n + 1)))
                     (Z.of_nat n - 1) in
  (0 <= upper)%Z /\ (upper <= lower)%Z /\ (lower < Z.of_nat n)%Z.
Proof.
  intros Hn Hs. cbv zeta.
  pose proof (inject_Z_succ_pos n) as HN.
  assert (Hn' : 1 <= inject_Z (Z.of_nat n)).
  { change 1 with (inject_Z 1). rewrite <- Zle_Qle. lia. }
  rewrite inject_Z_plus in HN |- *.
  set (N := inject_Z (Z.of_nat n)) in *.
  assert (Hs2 : s / 2 == s * (1 # 2)) by reflexivity.
  assert (H0 : (0 <= Qfloor ((s / 2) * (N + inject_Z 1)))%Z).
  { apply floor_nonneg. rewrite Hs2. change (inject_Z 1) with 1. nra. }
  assert (H1 : (Qfloor ((s / 2) * (N + inject_Z 1)) < Z.of_nat n)%Z).
  { apply floor_lt. rewrite Hs2. change (inject_Z 1) with 1. fold N. nra. }
  assert (H2 : (Qfloor ((s / 2) * (N + inject_Z 1)) <=
                Qfloor ((1 - s / 2) * (N + inject_Z 1)))%Z).
  { apply Qfloor_resp_le. rewrite Hs2. change (inject_Z 1) with 1. nra. }
  lia.
Qed.

Lemma signed_error_inverse_run (h : list vector) (lp ln : loc)
    (p nc : vector) (s : Q) :
  h !! lp = Some p -> h !! ln = Some nc -> nc <> [] -> 0 < s < 1 ->
  let n := length nc in
  let sorted := reverse (np_sort nc) in
  let upper := Z.max (Qfloor ((s / 2) * inject_Z (Z.of_nat n + 1))) 0 in
  let lower := Z.min (Qfloor ((1 - s / 2) * inject_Z (Z.of_nat n + 1)))
                     (Z.of_nat n - 1) in
  (0 <= upper)%Z /\ (upper <= lower)%Z /\ (lower < Z.of_nat n)%Z /\
  exists dl du, sorted !! Z.to_nat lower = Some dl /\
    sorted !! Z.to_nat upper = Some du /\
    signed_error_inverse lp ln s h =
      (Some (map (fun x => (x + dl, x + du)) p), h ++ [np_sort nc]).
Proof.
  intros Hp Hnc Hne Hs n sorted upper lower.
  assert (Hn : (1 <= n)%nat) by (unfold n; destruct nc; [done | simpl; lia]).
  destruct (signed_ranks n s Hn Hs) as (Hu & Hul & Hl).
  fold upper lower in Hu, Hul, Hl.
  assert (Hlen : length sorted = n) by (unfold sorted; apply length_np_sort).
  destruct (lookup_lt_is_Some_2 sorted (Z.to_nat lower)) as [dl Hdl]; [lia|].
  destruct (lookup_lt_is_Some_2 sorted (Z.to_nat upper)) as [du Hdu]; [lia|].
  split_and!; [done | done | done |]. exists dl, du. split_and!; [done | done |].
  unfold signed_error_inverse. st_unfold. rewrite Hp, Hnc.
  rewrite lookup_alloc_fresh. fold sorted. rewrite Hlen.
  fold upper lower. rewrite !py_index_nonneg by lia.
  rewrite Hdl, Hdu. by rewrite vstack_T_map.
Qed.

(** ** C5: [signed_error_inverse] *)

(** C5. For every non-empty calibration pool [nc] of size [n] and
    significance [s] in (0,1), [signed_error_inverse] sorts [nc] in
    descending order, computes [upper = max(floor((s/2) * (n+1)), 0)] and
    [lower = min(floor((1 - s/2) * (n+1)), n - 1)] (both valid indices)
    and returns for every sample the pair
    [(prediction[i] + nc[lower], prediction[i] + nc[upper])]. *)
Theorem signed_error_inverse_spec (h : list vector) (lp ln : loc)
    (p nc : vector) (s : Q) :
  h !! lp = Some p -> h !! ln = Some nc -> nc <> [] -> 0 < s < 1 ->
  let n := length nc in
  let sorted := reverse (np_sort nc) in
  let upper := Z.max (Qfloor ((s / 2) * inject_Z (Z.of_nat n + 1))) 0 in
  let lower := Z.min (Qfloor ((1 - s / 2) * inject_Z (Z.of_nat n + 1)))
                     (Z.of_nat n - 1) in
  Permutation nc sorted /\ descending sorted /\
  (0 <= upper < Z.of_nat n)%Z /\ (0 <= lower < Z.of_nat n)%Z /\
  exists dl du, sorted !! Z.to_nat lower = Some dl /\
    sorted !! Z.to_nat upper = Some du /\
    signed_error_inverse lp ln s h =
      (Some (map (fun x => (x + dl, x + du)) p), h ++ [np_sort nc]).
Proof.
  intros Hp Hnc Hne Hs n sorted upper lower.
  destruct (signed_error_inverse_run h lp ln p nc s Hp Hnc Hne Hs)
    as (Hu & Hul & Hl & Hrest).
  unfold upper, lower, sorted, n in *.
  split_and!; [apply np_sort_permutation | apply np_sort_descending
              | lia | lia | lia | lia | exact Hrest].
Qed.

(** C5 at a concrete input. *)
Lemma signed_error_inverse_spec_witness :
  [1; 2; 3; 4; 5] <> [] /\ 0 < 2 # 5 < 1 /\
  exists out h', signed_error_inverse 0%nat 1%nat (2 # 5)
                   [[10; 20]; [1; 2; 3; 4; 5]] = (Some out, h').
Proof.
  assert (Hne : [1; 2; 3; 4; 5] <> []) by discriminate.
  assert (Hs : 0 < 2 # 5 < 1) by (split; reflexivity).
  split; [exact Hne|]. split; [exact Hs|].
  destruct (signed_error_inverse_spec [[10; 20]; [1; 2; 3; 4; 5]] 0%nat 1%nat
    [10; 20] [1; 2; 3; 4; 5] (2 # 5) eq_refl eq_refl Hne Hs)
    as (_ & _ & _ & _ & dl & du & _ & _ & Hrun).
  do 2 eexists. exact Hrun.
Defined.

(** ** C9: well-formed signed intervals *)

(** C9. For every non-empty calibration pool and significance in (0,1),
    the upper-bound rank of [signed_error_inverse] is at most its
    lower-bound rank, so in the descending pool [nc[lower] <= nc[upper]]
    and every returned interval has its lower bound at most its upper
    bound. *)
Theorem signed_error_inverse_well_formed (h : list vector) (lp ln : loc)
    (p nc : vector) (s : Q) :
  h !! lp = Some p -> h !! ln = Some nc -> nc <> [] -> 0 < s < 1 ->
  let n := length nc in
  let sorted := reverse (np_sort nc) in
  let upper := Z.max (Qfloor ((s / 2) * inject_Z (Z.of_nat n + 1))) 0 in
  let lower := Z.min (Qfloor ((1 - s / 2) * inject_Z (Z.of_nat n + 1)))
                     (Z.of_nat n - 1) in
  (upper <= lower)%Z /\
  exists dl du out, sorted !! Z.to_nat lower = Some dl /\
    sorted !! Z.to_nat upper = Some du /\ dl <= du /\
    signed_error_inverse lp ln s h = (Some out, h ++ [np_sort nc]) /\
    Forall (fun b => b.1 <= b.2) out.
Proof.
  intros Hp Hnc Hne Hs n sorted upper lower.
  destruct (signed_error_inverse_run h lp ln p nc s Hp Hnc Hne Hs)
    as (Hu & Hul & Hl & dl & du & Hdl & Hdu & Hrun).
  unfold upper, lower, sorted, n in *.
  assert (Hle : dl <= du).
  { eapply np_sort_descending; [| exact Hdu | exact Hdl]. lia. }
  split; [done|]. exists dl, du, (map (fun x => (x + dl, x + du)) p).
  split_and!; [done | done | done | done |].
  apply Forall_forall. intros b Hin.
  apply list_elem_of_fmap in Hin as (x & -> & _). simpl.
  apply Qplus_le_r. exact Hle.
Qed.

(** C9 at a concrete input. *)
Lemma signed_error_inverse_well_formed_witness :
  [3; 1; 2] <> [] /\ 0 < 1 # 10 < 1 /\
  exists out h', signed_error_inverse 0%nat 1%nat (1 # 10)
                   [[0; 7]; [3; 1; 2]] = (Some out, h') /\
    Forall (fun b => b.1 <= b.2) out.
Proof.
  assert (Hne : [3; 1; 2] <> []) by discriminate.
  assert (Hs : 0 < 1 # 10 < 1) by (split; reflexivity).
  split; [exact Hne|]. split; [exact Hs|].
  destruct (signed_error_inverse_well_formed [[0; 7]; [3; 1; 2]] 0%nat 1%nat
    [0; 7] [3; 1; 2] (1 # 10) eq_refl eq_refl Hne Hs)
    as (_ & dl & du & out & _ & _ & _ & Hrun & Hf).
  exists out, ([[0; 7]; [3; 1; 2]] ++ [np_sort [3; 1; 2]]). split; [exact Hrun | exact Hf].
Defined.

(** ** C10: the calibration pool is not modified *)

Lemma absolute_error_inverse_extends (h : list vector) (lp ln : loc) (s : Q) :
  exists ext, snd (absolute_error_inverse lp ln s h) = h ++ ext.
Proof.
  unfold absolute_error_inverse. st_unfold.
  destruct (h !! lp); [| exists []; by rewrite app_nil_r].
  destruct (h !! ln) as [v|]; [| exists []; by rewrite app_nil_r].
  rewrite lookup_alloc_fresh. cbv beta iota zeta.
  destruct (py_index _ _); eexists; reflexivity.
Qed.

Lemma signed_error_inverse_extends (h : list vector) (lp ln : loc) (s : Q) :
  exists ext, snd (signed_error_inverse lp ln s h) = h ++ ext.
Proof.
  unfold signed_error_inverse. st_unfold.
  destruct (h !! lp); [| exists []; by rewrite app_nil_r].
  destruct (h !! ln) as [v|]; [| exists []; by rewrite app_nil_r].
  rewrite lookup_alloc_fresh. cbv beta iota zeta.
  destruct (py_index _ _); [destruct (py_index _ _)|]; eexists; reflexivity.
Qed.

(** C10. Whatever the arguments, [absolute_error_inverse] and
    [signed_error_inverse] leave every array already in the store, the
    caller's calibration pool among them, exactly as it was (same values,
    same order): the sorted pool is a freshly allocated array. *)
Theorem inverse_functions_preserve_pool (h : list vector) (lp ln : loc) (s : Q) :
  (forall l, (l < length h)%nat ->
     snd (absolute_error_inverse lp ln s h) !! l = h !! l) /\
  (forall l, (l < length h)%nat ->
     snd (signed_error_inverse lp ln s h) !! l = h !! l).
Proof.
  destruct (absolute_error_inverse_extends h lp ln s) as [e1 He1].
  destruct (signed_error_inverse_extends h lp ln s) as [e2 He2].
  split; intros l Hl; [rewrite He1 | rewrite He2]; by apply lookup_app_l.
Qed.

(** ** The adapters' cache *)

Lemma row_equal_refl (a : list Q) : row_equal a a = true.
Proof. induction a; simpl; [done|]. by rewrite Qeq_bool_refl, IHa. Qed.

Lemma array_equal_refl (a : input) : array_equal a a = true.
Proof. induction a; simpl; [done|]. by rewrite row_equal_refl, IHa. Qed.

Lemma row_equal_trans (a b c : list Q) :
  row_equal a b = true -> row_equal b c = true -> row_equal a c = true.
Proof.
  revert b c. induction a as [|x a IH]; intros [|z b] [|w c]; simpl; try done.
  rewrite !andb_true_iff, !Qeq_bool_iff. intros [H1 H2] [H3 H4].
  split; [by rewrite H1 | eauto].
Qed.

Lemma array_equal_trans (a b c : input) :
  array_equal a b = true -> array_equal b c = true -> array_equal a c = true.
Proof.
  revert b c. induction a as [|x a IH]; intros [|z b] [|w c]; simpl; try done.
  rewrite !andb_true_iff. intros [H1 H2] [H3 H4].
  split; [eapply row_equal_trans | eapply IH]; eauto.
Qed.

Section Cache.
Context {Model P : Type}.
Variable infer : Model -> input -> option P.

(** A call that must recompute runs the model once. *)
Lemma underlying_predict_miss (s : nc_state) (x : input) :
  must_recompute s x = true ->
  nc_underlying_predict infer x s =
    match infer (model s) x with
    | None => (None, NcState (model s) (clean s) (Some x) (last_prediction s)
                       (arrays s) (S (n_infer s)))
    | Some p => (Some (S (length (arrays s))),
                 NcState (model s) true (Some x) (Some (length (arrays s)))
                   (arrays s ++ [p] ++ [p]) (S (n_infer s)))
    end.
Proof.
  intros Hm. unfold nc_underlying_predict, run_model, on_arrays.
  st_unfold. rewrite Hm. simpl.
  destruct (infer (model s) x) as [p|]; [|done].
  simpl. rewrite lookup_alloc_fresh. simpl.
  rewrite length_app. simpl. rewrite <- app_assoc. do 3 f_equal. lia.
Qed.

(** A call that may reuse the cache only copies it. *)
Lemma underlying_predict_hit (s : nc_state) (x : input) :
  must_recompute s x = false ->
  nc_underlying_predict infer x s =
    match last_prediction s with
    | None => (None, s)
    | Some lp =>
        match arrays s !! lp with
        | None => (None, s)
        | Some v => (Some (length (arrays s)), set_arrays (arrays s ++ [v]) s)
        end
    end.
Proof.
  intros Hm. unfold nc_underlying_predict, on_arrays.
  st_unfold. rewrite Hm. simpl.
  destruct (last_prediction s) as [lp|]; [|done].
  destruct (arrays s !! lp); simpl; by destruct s.
Qed.

(** After a returning call: the cache is valid for [x], the returned
    array is a fresh copy of the cached one, and no earlier array
    changed. *)
Lemma underlying_predict_post (s s1 : nc_state) (x : input) (l : loc) :
  nc_underlying_predict infer x s = (Some l, s1) ->
  exists lp v lx,
    last_prediction s1 = Some lp /\ (lp < l)%nat /\
    arrays s1 !! lp = Some v /\ arrays s1 !! l = Some v /\
    clean s1 = true /\ last_x s1 = Some lx /\ array_equal lx x = true /\
    model s1 = model s /\
    n_infer s1 = (if must_recompute s x then S (n_infer s) else n_infer s) /\
    (forall k, (k < length (arrays s))%nat -> arrays s1 !! k = arrays s !! k).
Proof.
  intros Hrun. destruct (must_recompute s x) eqn:Hm.
  - rewrite underlying_predict_miss in Hrun by done.
    destruct (infer (model s) x) as [p|]; [|discriminate].
    injection Hrun as <- <-. simpl.
    exists (length (arrays s)), p, x. split_and!; try done.
    + lia.
    + rewrite lookup_app_r, Nat.sub_diag by lia. done.
    + rewrite lookup_app_r by lia.
      by replace (S (length (arrays s)) - length (arrays s))%nat with 1%nat by lia.
    + apply array_equal_refl.
    + intros k Hk. by rewrite lookup_app_l by done.
  - rewrite underlying_predict_hit in Hrun by done.
    destruct (last_prediction s) as [lp|] eqn:Hlp; [|discriminate].
    destruct (arrays s !! lp) as [v|] eqn:Hv; [|discriminate].
    injection Hrun as <- <-.
    unfold must_recompute in Hm. apply orb_false_iff in Hm as [Hc Hx].
    destruct (last_x s) as [lx|] eqn:Hlx; [|discriminate].
    exists lp, v, lx. simpl. split_and!; try done.
    + eapply lookup_lt_Some; eauto.
    + by rewrite lookup_app_l by (eapply lookup_lt_Some; eauto).
    + by rewrite lookup_app_r, Nat.sub_diag by lia.
    + by apply negb_false_iff.
    + by apply negb_false_iff.
    + intros k Hk. by rewrite lookup_app_l by done.
Qed.
End Cache.

Lemma fit_post {Model P Y : Type} (fitf : Model -> input -> Y -> option Model)
    (s s' : @nc_state Model P) (x : input) (y : Y) :
  nc_fit fitf x y s = (Some tt, s') ->
  clean s' = false /\ n_infer s' = n_infer s /\ arrays s' = arrays s.
Proof.
  unfold nc_fit. st_unfold. destruct (fitf (model s) x y); [|discriminate].
  intros H. injection H as <-. done.
Qed.

Lemma nc_cache_contract {Model P Y : Type}
    (fitf : Model -> input -> Y -> option Model)
    (infer : Model -> input -> option P) (s s1 : nc_state) (x1 x2 : input)
    (l1 : loc) :
  array_equal x1 x2 = true ->
  nc_underlying_predict infer x1 s = (Some l1, s1) ->
  n_infer s1 = (if must_recompute s x1 then S (n_infer s) else n_infer s) /\
  (exists l2 s2, nc_underlying_predict infer x2 s1 = (Some l2, s2) /\
     n_infer s2 = n_infer s1 /\ arrays s2 !! l2 = arrays s1 !! l1) /\
  (forall xt y s1', nc_fit fitf xt y s1 = (Some tt, s1') ->
     n_infer (snd (nc_underlying_predict infer x2 s1')) = S (n_infer s1')).
Proof.
  intros Heq Hrun.
  destruct (underlying_predict_post infer s s1 x1 l1 Hrun)
    as (lp & v & lx & Hlp & Hlt & Hv & Hl1 & Hc & Hlx & Hax & _ & Hn & _).
  split_and!; [done | |].
  - assert (Hm : must_recompute s1 x2 = false).
    { unfold must_recompute. rewrite Hc, Hlx. simpl.
      by rewrite (array_equal_trans lx x1 x2 Hax Heq). }
    rewrite underlying_predict_hit, Hlp, Hv by done.
    do 2 eexists. split_and!; [reflexivity | by destruct s1 |].
    simpl. rewrite Hl1. by rewrite lookup_app_r, Nat.sub_diag by lia.
  - intros xt y s1' Hfit. destruct (fit_post fitf s1 s1' xt y Hfit) as (Hc' & _ & _).
    assert (Hm : must_recompute s1' x2 = true).
    { unfold must_recompute. by rewrite Hc'. }
    rewrite underlying_predict_miss by done.
    by destruct (infer (model s1') x2).
Qed.

Lemma margin_loop_frame (l : loc) (y : list nat) :
  forall (k : nat) (h : list matrix) (l' : loc), l' <> l ->
  snd (margin_loop l k y h) !! l' = h !! l'.
Proof.
  induction y as [|yi y IH]; intros k h l' Hne; simpl; st_unfold; [done|].
  destruct (h !! l) as [m|]; simpl; [|done].
  destruct (m !! k) as [row|]; simpl; [|done].
  destruct (row !! yi) as [v|]; simpl; [|done].
  destruct (decide (l < length h)%nat); simpl; [|done].
  destruct (margin_loop l (S k) y (<[l := <[k := <[yi := NInf]> row]> m]> h))
    as [[rest|] h2] eqn:Hrec; simpl;
    (pose proof (IH (S k) (<[l := <[k := <[yi := NInf]> row]> m]> h) l' Hne) as H;
     rewrite Hrec in H; simpl in H; rewrite H; by apply list_lookup_insert_ne).
Qed.

Lemma margin_frame (l : loc) (y : list nat) (h : list matrix) (l' : loc) :
  l' <> l -> snd (margin l y h) !! l' = h !! l'.
Proof.
  intros Hne. rewrite <- (margin_loop_frame l y 0 h l' Hne).
  unfold margin. st_unfold.
  destruct (margin_loop l 0 y h) as [[prob|] h1]; simpl; [|done].
  destruct (h1 !! l); simpl; [|done].
  destruct (np_max_axis1 _); simpl; [|done].
  by destruct (bcast _ _ _).
Qed.

(** ** C1: the caching contract of both adapters *)

(** C1. For [ProbEstClassifierNc] and [RegressorNc]: a freshly constructed
    adapter must run the model on its first call; when [underlying_predict]
    returns on [x1] and is then called again on a value-equal [x2], the
    first call runs the model's inference exactly once if the cache did not
    already hold [x1] (none otherwise), the second call runs no inference
    and returns a copy of the same cached prediction; and if [fit] is
    called in between, the second call runs inference again. *)
Theorem underlying_predict_caching :
  (forall (Model Y : Type) (model_fit : Model -> input -> Y -> option Model)
      (predict_proba : Model -> input -> option matrix)
      (s s1 : @nc_state Model matrix) (x1 x2 : input) (l1 : loc),
    (forall (m : Model) (h : list matrix), must_recompute (nc_init m h) x1 = true) /\
    (array_equal x1 x2 = true ->
     ProbEstClassifierNc.underlying_predict predict_proba x1 s = (Some l1, s1) ->
     n_infer s1 = (if must_recompute s x1 then S (n_infer s) else n_infer s) /\
     (exists l2 s2,
        ProbEstClassifierNc.underlying_predict predict_proba x2 s1 = (Some l2, s2) /\
        n_infer s2 = n_infer s1 /\ arrays s2 !! l2 = arrays s1 !! l1) /\
     (forall xt y s1', ProbEstClassifierNc.fit model_fit xt y s1 = (Some tt, s1') ->
        n_infer (snd (ProbEstClassifierNc.underlying_predict predict_proba x2 s1'))
        = S (n_infer s1')))) /\
  (forall (Model Y : Type) (model_fit : Model -> input -> Y -> option Model)
      (predict : Model -> input -> option vector)
      (s s1 : @nc_state Model vector) (x1 x2 : input) (l1 : loc),
    (forall (m : Model) (h : list vector), must_recompute (nc_init m h) x1 = true) /\
    (array_equal x1 x2 = true ->
     RegressorNc.underlying_predict predict x1 s = (Some l1, s1) ->
     n_infer s1 = (if must_recompute s x1 then S (n_infer s) else n_infer s) /\
     (exists l2 s2,
        RegressorNc.underlying_predict predict x2 s1 = (Some l2, s2) /\
        n_infer s2 = n_infer s1 /\ arrays s2 !! l2 = arrays s1 !! l1) /\
     (forall xt y s1', RegressorNc.fit model_fit xt y s1 = (Some tt, s1') ->
        n_infer (snd (RegressorNc.underlying_predict predict x2 s1'))
        = S (n_infer s1')))).
Proof.
  split; intros Model Y model_fit infer s s1 x1 x2 l1;
    (split; [intros m h; reflexivity |]);
    intros Heq Hrun; exact (nc_cache_contract model_fit infer s s1 x1 x2 l1 Heq Hrun).
Qed.

(** C1 at a concrete input: a fresh classifier adapter, two calls on the
    same one-sample input. *)
Lemma underlying_predict_caching_witness :
  array_equal [[1]] [[1]] = true /\
  ProbEstClassifierNc.underlying_predict (fun (_ : unit) (_ : input) =>
      Some [[Fin (1 # 4); Fin (3 # 4)]]) [[1]] (nc_init tt [])
    = (Some 1%nat, NcState tt true (Some [[1]]) (Some 0%nat)
        [[[Fin (1 # 4); Fin (3 # 4)]]; [[Fin (1 # 4); Fin (3 # 4)]]] 1%nat) /\
  exists l2 s2,
    ProbEstClassifierNc.underlying_predict (fun (_ : unit) (_ : input) =>
      Some [[Fin (1 # 4); Fin (3 # 4)]]) [[1]]
      (NcState tt true (Some [[1]]) (Some 0%nat)
        [[[Fin (1 # 4); Fin (3 # 4)]]; [[Fin (1 # 4); Fin (3 # 4)]]] 1%nat)
    = (Some l2, s2) /\ n_infer s2 = 1%nat.
Proof.
  split; [reflexivity|]. split; [reflexivity|].
  destruct (proj2 (proj1 underlying_predict_caching unit unit
    (fun m _ _ => Some m) (fun _ _ => Some [[Fin (1 # 4); Fin (3 # 4)]])
    (nc_init tt []) _ [[1]] [[1]] 1%nat) eq_refl eq_refl)
    as (_ & (l2 & s2 & Hrun & Hn & _) & _).
  exists l2, s2. split; [exact Hrun | exact Hn].
Defined.

(** ** C7: defensive copies *)

(** C7. For both adapters, every returning call of [underlying_predict]
    hands back a fresh array distinct from the cached prediction and
    holding the same values, so overwriting the returned array leaves the
    cached prediction unchanged; likewise [calc_nc] leaves the cached
    prediction unchanged when its score function mutates the array it
    receives ([margin] for the classifier) or only reads it (the
    regression error functions). *)
Theorem underlying_predict_defensive_copy :
  (forall (Model : Type) (predict_proba : Model -> input -> option matrix)
      (s s1 : @nc_state Model matrix) (x : input) (l : loc),
    ProbEstClassifierNc.underlying_predict predict_proba x s = (Some l, s1) ->
    exists lp v, last_prediction s1 = Some lp /\ lp <> l /\
      arrays s1 !! lp = Some v /\ arrays s1 !! l = Some v /\
      (forall w, <[l := w]> (arrays s1) !! lp = Some v) /\
      (forall y, last_prediction
                   (snd (ProbEstClassifierNc.calc_nc predict_proba margin x y s))
                 = Some lp /\
                 arrays (snd (ProbEstClassifierNc.calc_nc predict_proba margin x y s))
                   !! lp = Some v)) /\
  (forall (Model : Type) (predict : Model -> input -> option vector)
      (s s1 : @nc_state Model vector) (x : input) (l : loc),
    RegressorNc.underlying_predict predict x s = (Some l, s1) ->
    exists lp v, last_prediction s1 = Some lp /\ lp <> l /\
      arrays s1 !! lp = Some v /\ arrays s1 !! l = Some v /\
      (forall w, <[l := w]> (arrays s1) !! lp = Some v) /\
      (forall (err : vector -> vector -> option vector) y,
         last_prediction (snd (RegressorNc.calc_nc predict (on_loaded err) x y s))
           = Some lp /\
         arrays (snd (RegressorNc.calc_nc predict (on_loaded err) x y s))
           !! lp = Some v)).
Proof.
  split; intros Model infer s s1 x l Hrun;
    destruct (underlying_predict_post infer s s1 x l Hrun)
      as (lp & v & lx & Hlp & Hlt & Hv & Hl & _);
    exists lp, v; (split_and!; [done | lia | done | done | |]);
    try (intros w; rewrite list_lookup_insert_ne by lia; done).
  - intros y. unfold ProbEstClassifierNc.calc_nc, nc_calc_nc, on_arrays.
    unfold ProbEstClassifierNc.underlying_predict in Hrun.
    unfold st_bind. rewrite Hrun.
    destruct (margin l y (arrays s1)) as [r h2] eqn:Hm. simpl.
    split; [by destruct s1|].
    rewrite <- Hv. change h2 with (snd (r, h2)). rewrite <- Hm.
    apply margin_frame. lia.
  - intros err y. unfold RegressorNc.calc_nc, nc_calc_nc, on_arrays.
    unfold RegressorNc.underlying_predict in Hrun.
    unfold st_bind. rewrite Hrun. unfold on_loaded. st_unfold.
    destruct (arrays s1 !! l); simpl; (split; [by destruct s1 | done]).
Qed.

(** C7 at a concrete input: a fresh regressor adapter. *)
Lemma underlying_predict_defensive_copy_witness :
  RegressorNc.underlying_predict (fun (_ : unit) (_ : input) => Some [2; 5])
    [[1]; [2]] (nc_init tt [])
  = (Some 1%nat, NcState tt true (Some [[1]; [2]]) (Some 0%nat)
       [[2; 5]; [2; 5]] 1%nat) /\
  exists lp v, last_prediction (NcState tt true (Some [[1]; [2]]) (Some 0%nat)
       [[2; 5]; [2; 5]] 1%nat) = Some lp /\ lp <> 1%nat /\
    (forall w, <[1%nat := w]> [[2; 5]; [2; 5]] !! lp = Some v).
Proof.
  split; [reflexivity|].
  destruct (proj2 underlying_predict_defensive_copy unit
    (fun _ _ => Some [2; 5]) (nc_init tt []) _ [[1]; [2]] 1%nat eq_refl)
    as (lp & v & Hlp & Hne & _ & _ & Hw & _).
  exists lp, v. split_and!; [exact Hlp | exact Hne | exact Hw].
Defined.


(** * Further properties of the error functions and adapters *)

Lemma border_lt_gen (n : nat) (s : Q) :
  (1 <= n)%nat -> s < 1 ->
  (Z.to_nat (Z.max (Qfloor (s * inject_Z (Z.of_nat n + 1)) - 1) 0) < n)%nat.
Proof.
  intros Hn Hs. pose proof (inject_Z_succ_pos n) as HN.
  assert (Hf : (Qfloor (s * inject_Z (Z.of_nat n + 1)) < Z.of_nat n + 1)%Z).
  { apply floor_lt. set (N := inject_Z (Z.of_nat n + 1)) in *. nra. }
  lia.
Qed.

Lemma absolute_error_inverse_run (h : list vector) (lp ln : loc)
    (p nc : vector) (s : Q) :
  h !! lp = Some p -> h !! ln = Some nc -> nc <> [] -> s < 1 ->
  let border :=
    Z.to_nat (Z.max (Qfloor (s * inject_Z (Z.of_nat (length nc) + 1)) - 1) 0) in
  (border < length nc)%nat /\
  exists d, reverse (np_sort nc) !! border = Some d /\
    absolute_error_inverse lp ln s h =
      (Some (map (fun x => (x - d, x + d)) p), h ++ [np_sort nc]).
Proof.
  intros Hp Hnc Hne Hs border.
  assert (Hb : (border < length nc)%nat).
  { apply border_lt_gen; [destruct nc; [done | simpl; lia] | done]. }
  split; [done|].
  set (sorted := reverse (np_sort nc)).
  assert (Hlen : length sorted = length nc) by apply length_np_sort.
  destruct (lookup_lt_is_Some_2 sorted border) as [d Hd]; [lia|].
  exists d. split; [done|].
  unfold absolute_error_inverse. st_unfold. rewrite Hp, Hnc, lookup_alloc_fresh.
  fold sorted. rewrite Hlen, py_index_nonneg by lia. fold border.
  rewrite Hd. by rewrite vstack_T_map.
Qed.

Lemma Qfloor_ge_int (x : Q) (k : Z) : inject_Z k <= x -> (k <= Qfloor x)%Z.
Proof. intros H. rewrite <- (Qfloor_Z k). by apply Qfloor_resp_le. Qed.

(** X1. With a significance of 1 or more, [absolute_error_inverse] raises: the border
    floor(s (n+1)) - 1 is at least the pool size n, so [nc[border]] is out of
    range. The sorted copy of the pool has already been allocated. *)
Theorem absolute_error_inverse_large_significance (h : list vector)
    (lp ln : loc) (p nc : vector) (s : Q) :
  h !! lp = Some p -> h !! ln = Some nc -> 1 <= s ->
  absolute_error_inverse lp ln s h = (None, h ++ [np_sort nc]).
Proof.
  intros Hp Hnc Hs. unfold absolute_error_inverse. st_unfold.
  rewrite Hp, Hnc, lookup_alloc_fresh, length_np_sort.
  pose proof (inject_Z_succ_pos (length nc)) as HN.
  assert (Hf : (Z.of_nat (length nc) + 1 <=
                Qfloor (s * inject_Z (Z.of_nat (length nc) + 1)))%Z).
  { apply Qfloor_ge_int. set (N := inject_Z (Z.of_nat (length nc) + 1)) in *. nra. }
  rewrite py_index_nonneg by lia.
  rewrite lookup_ge_None_2; [done|]. rewrite length_np_sort. lia.
Qed.

(** X1 at a concrete input. *)
Lemma absolute_error_inverse_large_significance_witness :
  1 <= 1 /\
  absolute_error_inverse 0%nat 1%nat 1 [[10; 20]; [1; 2; 3]] =
    (None, [[10; 20]; [1; 2; 3]] ++ [np_sort [1; 2; 3]]).
Proof.
  split; [apply Qle_refl|].
  exact (absolute_error_inverse_large_significance [[10; 20]; [1; 2; 3]] 0%nat 1%nat
    [10; 20] [1; 2; 3] 1 eq_refl eq_refl (Qle_refl 1)).
Defined.

Lemma lookup_nil_py_index {A : Type} (i : Z) : py_index (@nil A) i = None.
Proof.
  unfold py_index. destruct (Z.leb 0 i); [done|].
  destruct (Z.leb _ i); done.
Qed.

(** X2. Both inverse error functions raise on an empty calibration pool: the index
    they read from the empty sorted pool is out of range. *)
Theorem inverse_functions_empty_pool (h : list vector) (lp ln : loc)
    (p : vector) (s : Q) :
  h !! lp = Some p -> h !! ln = Some [] ->
  absolute_error_inverse lp ln s h = (None, h ++ [[]]) /\
  signed_error_inverse lp ln s h = (None, h ++ [[]]).
Proof.
  intros Hp Hnc. unfold absolute_error_inverse, signed_error_inverse. st_unfold.
  rewrite Hp, Hnc. change (np_sort []) with (@nil Q).
  rewrite lookup_alloc_fresh. change (reverse (@nil Q)) with (@nil Q).
  rewrite !lookup_nil_py_index. done.
Qed.

(** X2 at a concrete input. *)
Lemma inverse_functions_empty_pool_witness :
  absolute_error_inverse 0%nat 1%nat (1 # 10) [[10]; []] = (None, [[10]; []] ++ [[]]) /\
  signed_error_inverse 0%nat 1%nat (1 # 10) [[10]; []] = (None, [[10]; []] ++ [[]]).
Proof.
  exact (inverse_functions_empty_pool [[10]; []] 0%nat 1%nat [10] (1 # 10) eq_refl eq_refl).
Defined.

Lemma descending_head (w : list Q) d :
  descending w -> w !! 0%nat = Some d -> Forall (fun x => x <= d) w.
Proof.
  intros Hd H0. apply Forall_lookup. intros j x Hj. exact (Hd 0%nat j d x ltac:(lia) H0 Hj).
Qed.

Lemma descending_last (w : list Q) d :
  descending w -> w !! (length w - 1)%nat = Some d -> Forall (fun x => d <= x) w.
Proof.
  intros Hd Hl. apply Forall_lookup. intros j x Hj.
  assert (j < length w)%nat by (eapply lookup_lt_Some; eauto).
  exact (Hd j (length w - 1)%nat x d ltac:(lia) Hj Hl).
Qed.

Lemma sorted_elem (nc : vector) i d :
  reverse (np_sort nc) !! i = Some d -> d ∈ nc.
Proof.
  intros Hd. apply list_elem_of_lookup_2 in Hd.
  by rewrite <- (np_sort_permutation nc) in Hd.
Qed.

Lemma Forall_sorted (P : Q -> Prop) (nc : vector) :
  Forall P (reverse (np_sort nc)) -> Forall P nc.
Proof. by rewrite <- (np_sort_permutation nc). Qed.

(** X3. When s (n+1) < 2 the border is 0: [absolute_error_inverse] returns the
    intervals [p - d, p + d] where d is the largest score of the pool. *)
Theorem absolute_error_inverse_small_significance (h : list vector)
    (lp ln : loc) (p nc : vector) (s : Q) :
  h !! lp = Some p -> h !! ln = Some nc -> nc <> [] ->
  s * inject_Z (Z.of_nat (length nc) + 1) < 2 ->
  exists d, absolute_error_inverse lp ln s h =
      (Some (map (fun x => (x - d, x + d)) p), h ++ [np_sort nc]) /\
    d ∈ nc /\ Forall (fun x => x <= d) nc.
Proof.
  intros Hp Hnc Hne Hs.
  assert (Hs1 : s < 1).
  { pose proof (inject_Z_succ_pos (length nc)) as HN.
    assert (H2 : 2 <= inject_Z (Z.of_nat (length nc) + 1)).
    { change 2 with (inject_Z 2). rewrite <- Zle_Qle.
      destruct nc; [done | simpl; lia]. }
    set (N := inject_Z (Z.of_nat (length nc) + 1)) in *. nra. }
  destruct (absolute_error_inverse_run h lp ln p nc s Hp Hnc Hne Hs1)
    as (Hb & d & Hd & Hrun).
  assert (Hf : (Qfloor (s * inject_Z (Z.of_nat (length nc) + 1)) < 2)%Z)
    by (apply floor_lt; exact Hs).
  replace (Z.to_nat (Z.max (Qfloor (s * inject_Z (Z.of_nat (length nc) + 1)) - 1) 0))
    with 0%nat in Hd by lia.
  exists d. split_and!; [done | by eapply sorted_elem |].
  apply Forall_sorted, descending_head; [apply np_sort_descending | done].
Qed.

(** X3 at a concrete input. *)
Lemma absolute_error_inverse_small_significance_witness :
  (1 # 10) * inject_Z (Z.of_nat (length [3; 1; 2]) + 1) < 2 /\
  exists d, absolute_error_inverse 0%nat 1%nat (1 # 10) [[10; 20]; [3; 1; 2]] =
      (Some (map (fun x => (x - d, x + d)) [10; 20]),
       [[10; 20]; [3; 1; 2]] ++ [np_sort [3; 1; 2]]) /\
    d ∈ [3; 1; 2] /\ Forall (fun x => x <= d) [3; 1; 2].
Proof.
  split; [reflexivity|].
  apply (absolute_error_inverse_small_significance [[10; 20]; [3; 1; 2]] 0%nat 1%nat
    [10; 20] [3; 1; 2] (1 # 10) eq_refl eq_refl); [discriminate | reflexivity].
Defined.

Lemma signed_error_inverse_at (h : list vector) (lp ln : loc)
    (p nc : vector) (s : Q) :
  h !! lp = Some p -> h !! ln = Some nc ->
  let n := length nc in
  let sorted := reverse (np_sort nc) in
  let upper := Z.max (Qfloor ((s / 2) * inject_Z (Z.of_nat n + 1))) 0 in
  let lower := Z.min (Qfloor ((1 - s / 2) * inject_Z (Z.of_nat n + 1)))
                     (Z.of_nat n - 1) in
  (0 <= lower)%Z -> (upper < Z.of_nat n)%Z ->
  exists dl du, sorted !! Z.to_nat lower = Some dl /\
    sorted !! Z.to_nat upper = Some du /\
    signed_error_inverse lp ln s h =
      (Some (map (fun x => (x + dl, x + du)) p), h ++ [np_sort nc]).
Proof.
  intros Hp Hnc n sorted upper lower Hl Hu.
  assert (Hlen : length sorted = n) by apply length_np_sort.
  destruct (lookup_lt_is_Some_2 sorted (Z.to_nat lower)) as [dl Hdl]; [lia|].
  destruct (lookup_lt_is_Some_2 sorted (Z.to_nat upper)) as [du Hdu]; [lia|].
  exists dl, du. split_and!; [done | done |].
  unfold signed_error_inverse. st_unfold. rewrite Hp, Hnc, lookup_alloc_fresh.
  fold sorted. rewrite Hlen. fold upper lower.
  rewrite !py_index_nonneg by lia. rewrite Hdl, Hdu. by rewrite vstack_T_map.
Qed.

(** X4. When s (n+1) < 2, [signed_error_inverse] returns the intervals
    [p + dmin, p + dmax] where dmin and dmax are the smallest and the largest
    score of the pool. *)
Theorem signed_error_inverse_small_significance (h : list vector)
    (lp ln : loc) (p nc : vector) (s : Q) :
  h !! lp = Some p -> h !! ln = Some nc -> nc <> [] ->
  s * inject_Z (Z.of_nat (length nc) + 1) < 2 ->
  exists dmin dmax, signed_error_inverse lp ln s h =
      (Some (map (fun x => (x + dmin, x + dmax)) p), h ++ [np_sort nc]) /\
    dmin ∈ nc /\ dmax ∈ nc /\ Forall (fun x => dmin <= x <= dmax) nc.
Proof.
  intros Hp Hnc Hne Hs.
  assert (Hn : (1 <= length nc)%nat) by (destruct nc; [done | simpl; lia]).
  pose proof (inject_Z_succ_pos (length nc)) as HN.
  assert (Hs2 : s / 2 == s * (1 # 2)) by reflexivity.
  assert (Hu : (Qfloor ((s / 2) * inject_Z (Z.of_nat (length nc) + 1)) < 1)%Z).
  { apply floor_lt. rewrite Hs2. change (inject_Z 1) with 1.
    set (N := inject_Z (Z.of_nat (length nc) + 1)) in *. nra. }
  assert (Hl : (Z.of_nat (length nc) <=
                Qfloor ((1 - s / 2) * inject_Z (Z.of_nat (length nc) + 1)))%Z).
  { apply Qfloor_ge_int. rewrite Hs2. rewrite inject_Z_plus in *.
    change (inject_Z 1) with 1 in *.
    set (N := inject_Z (Z.of_nat (length nc))) in *. nra. }
  destruct (signed_error_inverse_at h lp ln p nc s Hp Hnc) as (dl & du & Hdl & Hdu & Hrun);
    [lia | lia |].
  exists dl, du.
  replace (Z.to_nat (Z.max (Qfloor ((s / 2) * inject_Z (Z.of_nat (length nc) + 1))) 0))
    with 0%nat in Hdu by lia.
  replace (Z.to_nat (Z.min (Qfloor ((1 - s / 2) * inject_Z (Z.of_nat (length nc) + 1)))
                     (Z.of_nat (length nc) - 1)))
    with (length (reverse (np_sort nc)) - 1)%nat in Hdl by (rewrite length_np_sort; lia).
  split_and!; [done | by eapply sorted_elem | by eapply sorted_elem |].
  pose proof (descending_head _ _ (np_sort_descending nc) Hdu) as H1.
  pose proof (descending_last _ _ (np_sort_descending nc) Hdl) as H2.
  apply Forall_sorted. apply Forall_and; split; done.
Qed.

(** X4 at a concrete input. *)
Lemma signed_error_inverse_small_significance_witness :
  (1 # 10) * inject_Z (Z.of_nat (length [3; 1; 2]) + 1) < 2 /\
  exists dmin dmax, signed_error_inverse 0%nat 1%nat (1 # 10) [[10; 20]; [3; 1; 2]] =
      (Some (map (fun x => (x + dmin, x + dmax)) [10; 20]),
       [[10; 20]; [3; 1; 2]] ++ [np_sort [3; 1; 2]]) /\
    dmin ∈ [3; 1; 2] /\ dmax ∈ [3; 1; 2] /\
    Forall (fun x => dmin <= x <= dmax) [3; 1; 2].
Proof.
  split; [reflexivity|].
  apply (signed_error_inverse_small_significance [[10; 20]; [3; 1; 2]] 0%nat 1%nat
    [10; 20] [3; 1; 2] (1 # 10) eq_refl eq_refl); [discriminate | reflexivity].
Defined.

(** X5. For significances s1 <= s2 < 1, the half-width of the intervals of
    [absolute_error_inverse] at s2 is at most the one at s1. *)
Theorem absolute_error_inverse_monotone (h : list vector) (lp ln : loc)
    (p nc : vector) (s1 s2 : Q) :
  h !! lp = Some p -> h !! ln = Some nc -> nc <> [] -> s1 <= s2 -> s2 < 1 ->
  exists d1 d2,
    absolute_error_inverse lp ln s1 h =
      (Some (map (fun x => (x - d1, x + d1)) p), h ++ [np_sort nc]) /\
    absolute_error_inverse lp ln s2 h =
      (Some (map (fun x => (x - d2, x + d2)) p), h ++ [np_sort nc]) /\
    d2 <= d1.
Proof.
  intros Hp Hnc Hne H12 Hs2.
  destruct (absolute_error_inverse_run h lp ln p nc s1 Hp Hnc Hne ltac:(lra))
    as (_ & d1 & Hd1 & Hrun1).
  destruct (absolute_error_inverse_run h lp ln p nc s2 Hp Hnc Hne Hs2)
    as (_ & d2 & Hd2 & Hrun2).
  exists d1, d2. split_and!; [done | done |].
  pose proof (inject_Z_succ_pos (length nc)) as HN.
  assert (Hf : (Qfloor (s1 * inject_Z (Z.of_nat (length nc) + 1)) <=
                Qfloor (s2 * inject_Z (Z.of_nat (length nc) + 1)))%Z).
  { apply Qfloor_resp_le. set (N := inject_Z (Z.of_nat (length nc) + 1)) in *. nra. }
  eapply (np_sort_descending nc); [| exact Hd1 | exact Hd2]. lia.
Qed.

(** X5 at a concrete input. *)
Lemma absolute_error_inverse_monotone_witness :
  (1 # 10) <= (1 # 2) /\
  exists d1 d2,
    absolute_error_inverse 0%nat 1%nat (1 # 10) [[0]; [1; 2; 3; 4; 5]] =
      (Some (map (fun x => (x - d1, x + d1)) [0]),
       [[0]; [1; 2; 3; 4; 5]] ++ [np_sort [1; 2; 3; 4; 5]]) /\
    absolute_error_inverse 0%nat 1%nat (1 # 2) [[0]; [1; 2; 3; 4; 5]] =
      (Some (map (fun x => (x - d2, x + d2)) [0]),
       [[0]; [1; 2; 3; 4; 5]] ++ [np_sort [1; 2; 3; 4; 5]]) /\
    d2 <= d1.
Proof.
  split; [discriminate|].
  apply (absolute_error_inverse_monotone [[0]; [1; 2; 3; 4; 5]] 0%nat 1%nat
    [0] [1; 2; 3; 4; 5] (1 # 10) (1 # 2) eq_refl eq_refl);
    [discriminate | discriminate | reflexivity].
Defined.

(** X6. For significances 0 < s1 <= s2 < 1, the intervals of [signed_error_inverse]
    at s2 lie within those at s1: the lower offset does not decrease and the
    upper offset does not increase. *)
Theorem signed_error_inverse_monotone (h : list vector) (lp ln : loc)
    (p nc : vector) (s1 s2 : Q) :
  h !! lp = Some p -> h !! ln = Some nc -> nc <> [] -> 0 < s1 -> s1 <= s2 -> s2 < 1 ->
  exists dl1 du1 dl2 du2,
    signed_error_inverse lp ln s1 h =
      (Some (map (fun x => (x + dl1, x + du1)) p), h ++ [np_sort nc]) /\
    signed_error_inverse lp ln s2 h =
      (Some (map (fun x => (x + dl2, x + du2)) p), h ++ [np_sort nc]) /\
    dl1 <= dl2 /\ du2 <= du1.
Proof.
  intros Hp Hnc Hne H1 H12 H2.
  destruct (signed_error_inverse_run h lp ln p nc s1 Hp Hnc Hne ltac:(lra))
    as (_ & _ & _ & dl1 & du1 & Hl1 & Hu1 & Hrun1).
  destruct (signed_error_inverse_run h lp ln p nc s2 Hp Hnc Hne ltac:(lra))
    as (_ & _ & _ & dl2 & du2 & Hl2 & Hu2 & Hrun2).
  exists dl1, du1, dl2, du2. split_and!; [done | done | |].
  - pose proof (inject_Z_succ_pos (length nc)) as HN.
    assert (Hf : (Qfloor ((1 - s2 / 2) * inject_Z (Z.of_nat (length nc) + 1)) <=
                  Qfloor ((1 - s1 / 2) * inject_Z (Z.of_nat (length nc) + 1)))%Z).
    { apply Qfloor_resp_le. unfold Qdiv. change (/ 2) with (1 # 2).
      set (N := inject_Z (Z.of_nat (length nc) + 1)) in *. nra. }
    eapply (np_sort_descending nc); [| exact Hl2 | exact Hl1]. lia.
  - pose proof (inject_Z_succ_pos (length nc)) as HN.
    assert (Hf : (Qfloor ((s1 / 2) * inject_Z (Z.of_nat (length nc) + 1)) <=
                  Qfloor ((s2 / 2) * inject_Z (Z.of_nat (length nc) + 1)))%Z).
    { apply Qfloor_resp_le. unfold Qdiv. change (/ 2) with (1 # 2).
      set (N := inject_Z (Z.of_nat (length nc) + 1)) in *. nra. }
    eapply (np_sort_descending nc); [| exact Hu1 | exact Hu2]. lia.
Qed.

(** X6 at a concrete input. *)
Lemma signed_error_inverse_monotone_witness :
  0 < 1 # 10 /\ (1 # 10) <= (1 # 2) /\
  exists dl1 du1 dl2 du2,
    signed_error_inverse 0%nat 1%nat (1 # 10) [[0]; [1; 2; 3; 4; 5]] =
      (Some (map (fun x => (x + dl1, x + du1)) [0]),
       [[0]; [1; 2; 3; 4; 5]] ++ [np_sort [1; 2; 3; 4; 5]]) /\
    signed_error_inverse 0%nat 1%nat (1 # 2) [[0]; [1; 2; 3; 4; 5]] =
      (Some (map (fun x => (x + dl2, x + du2)) [0]),
       [[0]; [1; 2; 3; 4; 5]] ++ [np_sort [1; 2; 3; 4; 5]]) /\
    dl1 <= dl2 /\ du2 <= du1.
Proof.
  split; [reflexivity|]. split; [discriminate|].
  apply (signed_error_inverse_monotone [[0]; [1; 2; 3; 4; 5]] 0%nat 1%nat
    [0] [1; 2; 3; 4; 5] (1 # 10) (1 # 2) eq_refl eq_refl);
    [discriminate | reflexivity | discriminate | reflexivity].
Defined.

Lemma filter_all {A : Type} (P : A -> Prop) `{!forall x, Decision (P x)} (l : list A) :
  Forall P l -> filter P l = l.
Proof.
  induction 1 as [|x l Hx _ IH]; [done|].
  rewrite filter_cons_True by done. by rewrite IH.
Qed.

Lemma filter_none {A : Type} (P : A -> Prop) `{!forall x, Decision (P x)} (l : list A) :
  Forall (fun x => ~ P x) l -> filter P l = [].
Proof.
  induction 1 as [|x l Hx _ IH]; [done|].
  by rewrite filter_cons_False.
Qed.

Lemma descending_count (w : list Q) (b : nat) (d : Q) :
  descending w -> w !! b = Some d ->
  (count_above d w <= b)%nat /\ (b < count_at_least d w)%nat.
Proof.
  intros Hw Hb. assert (Hlt : (b < length w)%nat) by (eapply lookup_lt_Some; eauto).
  split.
  - unfold count_above. rewrite <- (take_drop b w), filter_app, length_app.
    rewrite (filter_none _ (drop b w)).
    + simpl. pose proof (length_filter (fun x => Qle_bool x d = false) (take b w)).
      rewrite length_take in *. lia.
    + apply Forall_lookup. intros j x Hj. rewrite lookup_drop in Hj.
      assert (Hx : x <= d) by (exact (Hw b (b + j)%nat d x ltac:(lia) Hb Hj)).
      apply Qle_bool_iff in Hx. congruence.
  - unfold count_at_least. rewrite <- (take_drop (S b) w), filter_app, length_app.
    rewrite (filter_all _ (take (S b) w)).
    + rewrite length_take. lia.
    + apply Forall_lookup. intros j x Hj.
      assert (Hj' : (j < S b)%nat) by (apply lookup_lt_Some in Hj; rewrite length_take in Hj; lia).
      rewrite lookup_take_lt in Hj by lia.
      apply Qle_bool_iff. exact (Hw j b x d ltac:(lia) Hj Hb).
Qed.

Lemma count_sorted (d : Q) (nc : vector) :
  count_above d (reverse (np_sort nc)) = count_above d nc /\
  count_at_least d (reverse (np_sort nc)) = count_at_least d nc.
Proof. unfold count_above, count_at_least. by rewrite <- (np_sort_permutation nc). Qed.

(** X7. For a nonempty pool and s < 1, the half-width d of [absolute_error_inverse]
    is a pool score with at most border scores strictly above it and more than
    border scores at or above it. *)
Theorem absolute_error_inverse_rank (h : list vector) (lp ln : loc)
    (p nc : vector) (s : Q) :
  h !! lp = Some p -> h !! ln = Some nc -> nc <> [] -> s < 1 ->
  let border :=
    Z.to_nat (Z.max (Qfloor (s * inject_Z (Z.of_nat (length nc) + 1)) - 1) 0) in
  exists d, absolute_error_inverse lp ln s h =
      (Some (map (fun x => (x - d, x + d)) p), h ++ [np_sort nc]) /\
    (count_above d nc <= border)%nat /\ (border < count_at_least d nc)%nat.
Proof.
  intros Hp Hnc Hne Hs border.
  destruct (absolute_error_inverse_run h lp ln p nc s Hp Hnc Hne Hs)
    as (_ & d & Hd & Hrun).
  exists d. split; [done|].
  destruct (count_sorted d nc) as [<- <-].
  apply descending_count; [apply np_sort_descending | done].
Qed.

(** X7 at a concrete input. *)
Lemma absolute_error_inverse_rank_witness :
  (2 # 5) < 1 /\
  exists d, absolute_error_inverse 0%nat 1%nat (2 # 5) [[0]; [1; 2; 3; 4; 5]] =
      (Some (map (fun x => (x - d, x + d)) [0]),
       [[0]; [1; 2; 3; 4; 5]] ++ [np_sort [1; 2; 3; 4; 5]]) /\
    Nat.le (count_above d [1; 2; 3; 4; 5]) 1 /\
    Nat.lt 1 (count_at_least d [1; 2; 3; 4; 5]).
Proof.
  split; [reflexivity|].
  exact (absolute_error_inverse_rank [[0]; [1; 2; 3; 4; 5]] 0%nat 1%nat
    [0] [1; 2; 3; 4; 5] (2 # 5) eq_refl eq_refl ltac:(discriminate) eq_refl).
Defined.

(** X8. With targets ys as long as the predictions p, the interval
    [absolute_error_inverse] gives at index i contains ys[i] exactly when the
    absolute error |p[i] - ys[i]| is at most the half-width d. *)
Theorem absolute_error_inverse_coverage (h : list vector) (lp ln : loc)
    (p nc ys : vector) (s : Q) :
  h !! lp = Some p -> h !! ln = Some nc -> nc <> [] -> s < 1 ->
  length ys = length p ->
  let border :=
    Z.to_nat (Z.max (Qfloor (s * inject_Z (Z.of_nat (length nc) + 1)) - 1) 0) in
  exists d out errs, reverse (np_sort nc) !! border = Some d /\
    absolute_error_inverse lp ln s h = (Some out, h ++ [np_sort nc]) /\
    absolute_error p ys = Some errs /\
    forall i lo hi t e, out !! i = Some (lo, hi) -> ys !! i = Some t ->
      errs !! i = Some e -> (lo <= t <= hi <-> e <= d).
Proof.
  intros Hp Hnc Hne Hs Hlen border.
  destruct (absolute_error_inverse_run h lp ln p nc s Hp Hnc Hne Hs)
    as (_ & d & Hd & Hrun).
  eexists d, _, _. split_and!; [done | exact Hrun | |].
  { unfold absolute_error. rewrite bcast_same_length by done. reflexivity. }
  intros i lo hi t e Ho Ht He.
  rewrite list_lookup_fmap in Ho.
  destruct (p !! i) as [pi|] eqn:Hpi; [|done]. simpl in Ho. injection Ho as <- <-.
  rewrite lookup_zip_with, Hpi, Ht in He.
  assert (Hee : e = Qabs (pi - t))
    by (change (Some (Qabs (pi - t)) = Some e) in He; congruence).
  rewrite Hee.
  rewrite Qabs_Qle_condition. split; intros; lra.
Qed.

(** X8 at a concrete input. *)
Lemma absolute_error_inverse_coverage_witness :
  length [7; 1] = length [10; 20] /\
  exists d out errs,
    reverse (np_sort [1; 2; 3; 4; 5]) !! 1%nat = Some d /\
    absolute_error_inverse 0%nat 1%nat (2 # 5) [[10; 20]; [1; 2; 3; 4; 5]] =
      (Some out, [[10; 20]; [1; 2; 3; 4; 5]] ++ [np_sort [1; 2; 3; 4; 5]]) /\
    absolute_error [10; 20] [7; 1] = Some errs /\
    forall i lo hi t e, out !! i = Some (lo, hi) -> [7; 1] !! i = Some t ->
      errs !! i = Some e -> (lo <= t <= hi <-> e <= d).
Proof.
  split; [reflexivity|].
  exact (absolute_error_inverse_coverage [[10; 20]; [1; 2; 3; 4; 5]] 0%nat 1%nat
    [10; 20] [1; 2; 3; 4; 5] [7; 1] (2 # 5) eq_refl eq_refl ltac:(discriminate)
    eq_refl eq_refl).
Defined.

(** X9. With targets ys as long as the predictions p and 0 < s < 1, the interval
    [signed_error_inverse] gives at index i contains ys[i] exactly when the
    negated signed error ys[i] - p[i] lies between the pool scores at ranks
    lower and upper. *)
Theorem signed_error_inverse_coverage (h : list vector) (lp ln : loc)
    (p nc ys : vector) (s : Q) :
  h !! lp = Some p -> h !! ln = Some nc -> nc <> [] -> 0 < s < 1 ->
  length ys = length p ->
  let n := length nc in
  let upper := Z.max (Qfloor ((s / 2) * inject_Z (Z.of_nat n + 1))) 0 in
  let lower := Z.min (Qfloor ((1 - s / 2) * inject_Z (Z.of_nat n + 1)))
                     (Z.of_nat n - 1) in
  exists dl du out errs, reverse (np_sort nc) !! Z.to_nat lower = Some dl /\
    reverse (np_sort nc) !! Z.to_nat upper = Some du /\
    signed_error_inverse lp ln s h = (Some out, h ++ [np_sort nc]) /\
    signed_error p ys = Some errs /\
    forall i lo hi t e, out !! i = Some (lo, hi) -> ys !! i = Some t ->
      errs !! i = Some e -> (lo <= t <= hi <-> dl <= - e <= du).
Proof.
  intros Hp Hnc Hne Hs Hlen n upper lower.
  destruct (signed_error_inverse_run h lp ln p nc s Hp Hnc Hne Hs)
    as (_ & _ & _ & dl & du & Hdl & Hdu & Hrun).
  eexists dl, du, _, _. split_and!; [done | done | exact Hrun | |].
  { unfold signed_error. rewrite bcast_same_length by done. reflexivity. }
  intros i lo hi t e Ho Ht He.
  rewrite list_lookup_fmap in Ho.
  destruct (p !! i) as [pi|] eqn:Hpi; [|done]. simpl in Ho. injection Ho as <- <-.
  rewrite lookup_zip_with, Hpi, Ht in He. simpl in He. injection He as <-.
  split; intros; lra.
Qed.

(** X9 at a concrete input. *)
Lemma signed_error_inverse_coverage_witness :
  0 < 2 # 5 < 1 /\
  exists dl du out errs,
    reverse (np_sort [1; 2; 3; 4; 5]) !! 4%nat = Some dl /\
    reverse (np_sort [1; 2; 3; 4; 5]) !! 1%nat = Some du /\
    signed_error_inverse 0%nat 1%nat (2 # 5) [[10; 20]; [1; 2; 3; 4; 5]] =
      (Some out, [[10; 20]; [1; 2; 3; 4; 5]] ++ [np_sort [1; 2; 3; 4; 5]]) /\
    signed_error [10; 20] [7; 1] = Some errs /\
    forall i lo hi t e, out !! i = Some (lo, hi) -> [7; 1] !! i = Some t ->
      errs !! i = Some e -> (lo <= t <= hi <-> dl <= - e <= du).
Proof.
  split; [split; reflexivity|].
  exact (signed_error_inverse_coverage [[10; 20]; [1; 2; 3; 4; 5]] 0%nat 1%nat
    [10; 20] [1; 2; 3; 4; 5] [7; 1] (2 # 5) eq_refl eq_refl ltac:(discriminate)
    (conj eq_refl eq_refl) eq_refl).
Defined.

Lemma bcast_shape {A B C : Type} (f : A -> B -> C) (a : list A) (b : list B) :
  (is_Some (bcast f a b) <->
     length a = length b \/ length a = 1%nat \/ length b = 1%nat) /\
  (forall r, bcast f a b = Some r ->
     length r = if Nat.eqb (length a) 1 then length b else length a).
Proof.
  unfold bcast. destruct (decide (length a = length b)) as [Heq|Hne].
  - split; [split; [by left | eauto] |].
    intros r Hr. injection Hr as <-. rewrite length_zip_with.
    destruct (Nat.eqb_spec (length a) 1); lia.
  - destruct a as [|x [|x' a]], b as [|z [|z' b]]; simpl in Hne |- *;
      try (exfalso; lia);
      (split;
       [split;
        [intros [r0 Hr0]; (discriminate || (simpl; lia))
        | intros Hc; (eexists; reflexivity) || (exfalso; simpl in Hc; lia)]
       | intros r Hr;
         (discriminate || (injection Hr as <-; simpl;
                           rewrite ?length_map; lia))]).
Qed.

(** X10. [absolute_error] and [signed_error] succeed exactly when the two vectors
    have the same length or one of them has length 1; the result then has the
    length of the other vector when one has length 1 (lengths 1 and 0 give an
    empty result), and otherwise their common length. *)
Theorem error_functions_broadcasting (p y : vector) :
  (is_Some (absolute_error p y) <->
     length p = length y \/ length p = 1%nat \/ length y = 1%nat) /\
  (forall r, absolute_error p y = Some r ->
     length r = if Nat.eqb (length p) 1 then length y else length p) /\
  (is_Some (signed_error p y) <->
     length p = length y \/ length p = 1%nat \/ length y = 1%nat) /\
  (forall r, signed_error p y = Some r ->
     length r = if Nat.eqb (length p) 1 then length y else length p).
Proof.
  unfold absolute_error, signed_error.
  destruct (bcast_shape (fun p t => Qabs (p - t)) p y) as [H1 H2].
  destruct (bcast_shape (fun p t => p - t) p y) as [H3 H4].
  split_and!; assumption.
Qed.

(** ** [inverse_probability] on arbitrary labels *)

Lemma inverse_probability_loop_none (m : matrix) (y : list nat) (k : nat) :
  inverse_probability_loop m k y = None <->
  exists i yi, y !! i = Some yi /\ entry m (k + i) yi = None.
Proof.
  revert k. induction y as [|yi y IH]; intros k; simpl.
  - split; [done|]. intros (i & yi & Hy & _). done.
  - destruct (entry m k yi) as [v|] eqn:He; simpl.
    + destruct (inverse_probability_loop m (S k) y) as [rest|] eqn:Hr; simpl.
      * split; [done|]. intros ([|i] & yj & Hy & Hn); simpl in Hy.
        -- injection Hy as <-. rewrite Nat.add_0_r in Hn. congruence.
        -- assert (Hc : inverse_probability_loop m (S k) y = None).
           { apply IH. exists i, yj. split; [done|].
             by replace (S k + i)%nat with (k + S i)%nat by lia. }
           congruence.
      * split; [|done]. intros _. destruct (proj1 (IH (S k)) Hr)
          as (i & yj & Hy & Hn).
        exists (S i), yj. split; [done|].
        by replace (k + S i)%nat with (S k + i)%nat by lia.
    + split; [|done]. intros _. exists 0%nat, yi. rewrite Nat.add_0_r. done.
Qed.

Lemma labels_in_range_entry (m : matrix) (y : list nat) :
  labels_in_range m y <->
  forall i yi, y !! i = Some yi -> is_Some (entry m i yi).
Proof.
  unfold labels_in_range, entry. split.
  - intros Hr i yi Hy. destruct (Hr i yi Hy) as (row & Hm & Hlt).
    rewrite Hm. simpl. by apply lookup_lt_is_Some_2.
  - intros Hs i yi Hy. destruct (Hs i yi Hy) as [v Hv].
    destruct (m !! i) as [row|]; simpl in Hv; [|done].
    exists row. split; [done|]. eapply lookup_lt_Some; eauto.
Qed.

(** X11. [inverse_probability] never writes to the prediction; it raises exactly
    when the prediction is missing or some label is out of range for its row. *)
Theorem inverse_probability_raises_iff (h : list matrix) (l : loc)
    (y : list nat) :
  snd (inverse_probability l y h) = h /\
  (h !! l = None -> fst (inverse_probability l y h) = None) /\
  (forall m, h !! l = Some m ->
     fst (inverse_probability l y h) = None <-> ~ labels_in_range m y).
Proof.
  unfold inverse_probability. st_unfold.
  destruct (h !! l) as [m|] eqn:Hl; simpl.
  - destruct (inverse_probability_loop m 0 y) as [prob|] eqn:Hp; simpl;
      (split_and!; [done | done |]); intros m' Hm'; injection Hm' as <-.
    + split; [done|]. intros Hn. exfalso. apply Hn.
      apply labels_in_range_entry. intros i yi Hy.
      destruct (entry m i yi) as [v|] eqn:He; [done|].
      assert (Hc : inverse_probability_loop m 0 y = None).
      { apply inverse_probability_loop_none. eauto. }
      congruence.
    + split; [|done]. intros _ Hr.
      destruct (proj1 (inverse_probability_loop_none m y 0) Hp)
        as (i & yi & Hy & He).
      destruct (proj1 (labels_in_range_entry m y) Hr i yi Hy) as [v Hv].
      simpl in He. congruence.
  - split_and!; [done | done |]. intros m' Hm'. done.
Qed.

(** ** [margin] on arbitrary labels *)

Lemma insert_row_alter (m : matrix) (k yi : nat) (row : list fl) :
  m !! k = Some row ->
  <[k := <[yi := NInf]> row]> m = alter (insert yi NInf) k m.
Proof.
  intros Hrow. apply list_eq. intros r.
  destruct (decide (r = k)) as [->|Hne].
  - rewrite list_lookup_alter_eq, Hrow. simpl.
    apply list_lookup_insert_eq. eapply lookup_lt_Some; eauto.
  - rewrite list_lookup_insert_ne, list_lookup_alter_ne by lia. done.
Qed.

Lemma entry_insert_ne (m : matrix) (k r c : nat) (row : list fl) :
  r <> k -> entry (<[k := row]> m) r c = entry m r c.
Proof. intros Hne. unfold entry. by rewrite list_lookup_insert_ne by lia. Qed.

Lemma margin_loop_raise (l : loc) (y : list nat) :
  forall (j : nat) (h : list matrix) (m : matrix) (k yk : nat),
  h !! l = Some m -> y !! k = Some yk -> entry m (j + k) yk = None ->
  (forall i yi, (i < k)%nat -> y !! i = Some yi -> is_Some (entry m (j + i) yi)) ->
  margin_loop l j y h = (None, <[l := mask_rows j (take k y) m]> h).
Proof.
  induction y as [|yi y IH]; intros j h m k yk Hl Hy He Hbefore; [done|].
  simpl. st_unfold. rewrite Hl.
  destruct k as [|k]; simpl in Hy.
  - injection Hy as <-. rewrite Nat.add_0_r in He. simpl.
    rewrite list_insert_id by done. unfold entry in He.
    destruct (m !! j) as [row|]; simpl in *; [|done].
    by rewrite He.
  - destruct (Hbefore 0%nat yi ltac:(lia) eq_refl) as [v Hv].
    rewrite Nat.add_0_r in Hv. unfold entry in Hv.
    destruct (m !! j) as [row|] eqn:Hrow; simpl in Hv; [|discriminate].
    simpl. rewrite Hv. simpl.
    assert (Hlen : (l < length h)%nat) by (eapply lookup_lt_Some; eauto).
    rewrite decide_True by done.
    set (m1 := <[j := <[yi := NInf]> row]> m).
    rewrite (IH (S j) (<[l := m1]> h) m1 k yk).
    + rewrite list_insert_insert_eq. unfold m1.
      by rewrite (insert_row_alter m j yi row Hrow).
    + by apply list_lookup_insert_eq.
    + done.
    + unfold m1. rewrite entry_insert_ne by lia.
      by replace (S j + k)%nat with (j + S k)%nat by lia.
    + intros i yj Hi Hyj. unfold m1. rewrite entry_insert_ne by lia.
      replace (S j + i)%nat with (j + S i)%nat by lia.
      apply (Hbefore (S i)); [lia | done].
Qed.

(** X12. When [margin] raises on the label of row k, the caller's prediction keeps
    the -inf already written at the labels of the rows before k. *)
Theorem margin_raise_partial (h : list matrix) (l : loc) (m : matrix)
    (y : list nat) (k yk : nat) :
  h !! l = Some m -> y !! k = Some yk -> entry m k yk = None ->
  (forall i yi, (i < k)%nat -> y !! i = Some yi -> is_Some (entry m i yi)) ->
  margin l y h = (None, <[l := mask_rows 0 (take k y) m]> h).
Proof.
  intros Hl Hy He Hbefore. unfold margin. unfold st_bind at 1.
  rewrite (margin_loop_raise l y 0 h m k yk Hl Hy He Hbefore). done.
Qed.

(** X12 at a concrete input. *)
Lemma margin_raise_partial_witness :
  (forall i yi, (i < 1)%nat -> [1%nat; 5%nat] !! i = Some yi ->
     is_Some (entry [[Fin 1; Fin 0]; [Fin 0; Fin 1]] i yi)) /\
  margin 0%nat [1%nat; 5%nat] [[[Fin 1; Fin 0]; [Fin 0; Fin 1]]] =
    (None, <[0%nat := mask_rows 0 (take 1 [1%nat; 5%nat])
                        [[Fin 1; Fin 0]; [Fin 0; Fin 1]]]>
             [[[Fin 1; Fin 0]; [Fin 0; Fin 1]]]).
Proof.
  assert (Hb : forall i yi, (i < 1)%nat -> [1%nat; 5%nat] !! i = Some yi ->
     is_Some (entry [[Fin 1; Fin 0]; [Fin 0; Fin 1]] i yi)).
  { intros i yi Hi Hy. destruct i as [|i]; [|lia]. simpl in Hy.
    injection Hy as <-. eexists. reflexivity. }
  split; [exact Hb|].
  exact (margin_raise_partial [[[Fin 1; Fin 0]; [Fin 0; Fin 1]]] 0%nat
    [[Fin 1; Fin 0]; [Fin 0; Fin 1]] [1%nat; 5%nat] 1%nat 5%nat
    eq_refl eq_refl eq_refl Hb).
Defined.

Lemma np_max_axis1_length (m : matrix) (mx : list fl) :
  np_max_axis1 m = Some mx -> length mx = length m.
Proof.
  revert mx. induction m as [|row m IH]; intros mx H; simpl in H.
  - by injection H as <-.
  - destruct (np_max_row row), (np_max_axis1 m) as [xs|] eqn:E; try done.
    injection H as <-. simpl. f_equal. by apply IH.
Qed.

(** X13. With in-range labels but a label count and a row count that differ and are
    both not 1, [margin] raises on the final broadcast, after masking every
    labelled entry of the caller's prediction. *)
Theorem margin_length_mismatch (h : list matrix) (l : loc) (m : matrix)
    (y : list nat) :
  h !! l = Some m -> labels_in_range m y ->
  length y <> length m -> length y <> 1%nat -> length m <> 1%nat ->
  margin l y h = (None, <[l := mask_rows 0 y m]> h).
Proof.
  intros Hl Hr Hne H1 H2.
  assert (Hlt : (l < length h)%nat) by (eapply lookup_lt_Some; eauto).
  destruct (margin_loop_spec l y 0 h m Hl) as (prob & Hloop & Hplen & _).
  { intros i yi Hy. simpl. exact (Hr i yi Hy). }
  unfold margin. unfold st_bind at 1. rewrite Hloop.
  unfold st_bind. st_unfold. rewrite list_lookup_insert_eq by done.
  destruct (np_max_axis1 (mask_rows 0 y m)) as [mx|] eqn:Hmx; [|done].
  apply np_max_axis1_length in Hmx. rewrite length_mask_rows in Hmx.
  destruct (bcast fl_sub prob mx) as [d|] eqn:Hb; [|done].
  exfalso. destruct (proj1 (proj1 (bcast_shape fl_sub prob mx))) as [?|[?|?]];
    [by exists d | lia | lia | lia].
Qed.

(** X13 at a concrete input. *)
Lemma margin_length_mismatch_witness :
  labels_in_range [[Fin 1; Fin 0]; [Fin 0; Fin 1]; [Fin 1; Fin 0]] [0%nat; 1%nat] /\
  margin 0%nat [0%nat; 1%nat] [[[Fin 1; Fin 0]; [Fin 0; Fin 1]; [Fin 1; Fin 0]]] =
    (None, <[0%nat := mask_rows 0 [0%nat; 1%nat]
                        [[Fin 1; Fin 0]; [Fin 0; Fin 1]; [Fin 1; Fin 0]]]>
             [[[Fin 1; Fin 0]; [Fin 0; Fin 1]; [Fin 1; Fin 0]]]).
Proof.
  assert (Hr : labels_in_range [[Fin 1; Fin 0]; [Fin 0; Fin 1]; [Fin 1; Fin 0]]
                 [0%nat; 1%nat]).
  { intros [|[|i]] yi Hy; simpl in Hy; try discriminate;
      injection Hy as <-; (eexists; split; [reflexivity | simpl; lia]). }
  split; [exact Hr|].
  apply (margin_length_mismatch [[[Fin 1; Fin 0]; [Fin 0; Fin 1]; [Fin 1; Fin 0]]] 0%nat
    [[Fin 1; Fin 0]; [Fin 0; Fin 1]; [Fin 1; Fin 0]] [0%nat; 1%nat] eq_refl Hr);
    simpl; lia.
Defined.



Lemma fold_max_Fin (qs : list Q) (a : Q) :
  exists z, fold_left fl_max (map Fin qs) (Fin a) = Fin z /\
    a <= z /\ (z = a \/ z ∈ qs) /\ Forall (fun q => q <= z) qs.
Proof.
  revert a. induction qs as [|q qs IH]; intros a; simpl.
  - exists a. split_and!; [done | apply Qle_refl | by left | constructor].
  - destruct (Qle_bool a q) eqn:Haq.
    + apply Qle_bool_iff in Haq.
      destruct (IH q) as (z & Hz & Hqz & Hor & Hall).
      exists z. split_and!; [done | lra | |].
      * right. destruct Hor as [->|Hin]; [left | right; done].
      * by constructor.
    + assert (Hqa : q < a).
      { apply Qnot_le_lt. intros Hle. apply Qle_bool_iff in Hle. congruence. }
      destruct (IH a) as (z & Hz & Haz & Hor & Hall).
      exists z. split_and!; [done | done | |].
      * destruct Hor as [->|Hin]; [by left | right; by right].
      * constructor; [lra | done].
Qed.

Lemma max_other_spec (qs : list Q) (j : nat) :
  (2 <= length qs)%nat -> (j < length qs)%nat ->
  exists z, max_other (map Fin qs) j = Fin z /\
    (exists k, k <> j /\ qs !! k = Some z) /\
    (forall k q, k <> j -> qs !! k = Some q -> q <= z).
Proof.
  intros H2 Hj. unfold max_other.
  rewrite <- fmap_take, <- fmap_drop, <- fmap_app.
  set (os := take j qs ++ drop (S j) qs).
  assert (Hos : forall x, x ∈ os <-> exists k, k <> j /\ qs !! k = Some x).
  { intros x. unfold os. rewrite elem_of_app, !list_elem_of_lookup. split.
    - intros [(k & Hk)|(k & Hk)].
      + exists k. assert (k < j)%nat.
        { apply lookup_lt_Some in Hk. rewrite length_take in Hk. lia. }
        rewrite lookup_take_lt in Hk by lia. split; [lia | done].
      + exists (S j + k)%nat. rewrite lookup_drop in Hk. split; [lia | done].
    - intros (k & Hne & Hk). destruct (decide (k < j)%nat).
      + left. exists k. by rewrite lookup_take_lt.
      + right. exists (k - S j)%nat. rewrite lookup_drop.
        by replace (S j + (k - S j))%nat with k by lia. }
  destruct os as [|o os'] eqn:Hoe.
  { exfalso. assert (Hl : length (take j qs ++ drop (S j) qs) = 0%nat).
    { fold os. by rewrite Hoe. }
    rewrite length_app, length_take, length_drop in Hl. lia. }
  rewrite fmap_cons. cbn [fold_left]. rewrite fl_max_NInf_l.
  destruct (fold_max_Fin os' o) as (z & Hz & Hoz & Hor & Hall).
  exists z. split_and!; [done | |].
  - apply Hos. destruct Hor as [->|Hin]; [left | right]; done.
  - intros k q Hne Hk.
    assert (Hin : q ∈ o :: os') by (apply Hos; eauto).
    apply elem_of_cons in Hin as [->|Hin]; [done|].
    rewrite Forall_forall in Hall. by apply Hall.
Qed.

(** X15. On probability rows of at least two classes, the [margin] score of a row is
    below 1/2 exactly when the probability of the true label, as stored into the
    float32 buffer [prob], is strictly above every other entry of the row. *)
Theorem margin_below_half_iff_top (h : list matrix) (l : loc) (m : matrix)
    (y : list nat) :
  h !! l = Some m -> length m = length y -> labels_in_range m y ->
  Forall valid_row m -> Forall (fun row => (2 <= length row)%nat) m ->
  exists out h', margin l y h = (Some out, h') /\
    forall i yi row, y !! i = Some yi -> m !! i = Some row ->
      exists q p, out !! i = Some (Fin q) /\ row !! yi = Some (Fin p) /\
        (q < 1 # 2 <-> forall j v, j <> yi -> row !! j = Some (Fin v) -> v < f32_round p).
Proof.
  intros Hl Hlen Hr Hvalid H2.
  destruct (margin_result h l m y Hl Hlen Hr)
    as (prob & mx & Hrun & Hplen & Hmxlen & Hi).
  do 2 eexists. split; [exact Hrun|].
  intros i yi row Hy Hm.
  destruct (Hr i yi Hy) as (row0 & Hm0 & Hyi). rewrite Hm in Hm0.
  injection Hm0 as <-.
  destruct (Hi i yi row Hy Hm) as (v & Hv & Hp & Hmx).
  rewrite Forall_lookup in Hvalid, H2.
  pose proof (H2 i row Hm) as Hl2.
  destruct (Hvalid i row Hm) as (qs & -> & Hqs & _).
  rewrite length_map in Hl2, Hyi.
  apply list_lookup_fmap_Some_1 in Hv as (p & -> & Hqp).
  rewrite Forall_lookup in Hqs.
  destruct (f32_unit p (Hqs yi p Hqp)) as [Hf _]. rewrite Hf in Hp.
  destruct (max_other_spec qs yi Hl2 Hyi) as (z & Hz & (k & Hk & Hkz) & Hle).
  rewrite Hz in Hmx.
  eexists _, p. split_and!.
  - rewrite !list_lookup_fmap, (lookup_zip_with_eq _ _ _ _ _ _ Hp Hmx). reflexivity.
  - by rewrite list_lookup_fmap, Hqp.
  - assert (Hiff : (1 # 2) - (f32_round p - z) / 2 < 1 # 2 <-> z < f32_round p).
    { unfold Qdiv. change (/ 2) with (1 # 2). split; intros; lra. }
    simpl. rewrite Hiff. split.
    + intros Hzp j w Hj Hw. apply list_lookup_fmap_Some_1 in Hw as (w' & Hw' & Hqw).
      injection Hw' as ->. pose proof (Hle j w' Hj Hqw). lra.
    + intros Hall. apply (Hall k z Hk). by rewrite list_lookup_fmap, Hkz.
Qed.

(** X15 at a concrete input. *)
Lemma margin_below_half_iff_top_witness :
  Forall valid_row [[Fin (7 # 10); Fin (3 # 10)]] /\
  exists out h', margin 0%nat [0%nat] [[[Fin (7 # 10); Fin (3 # 10)]]] = (Some out, h') /\
    forall i yi row, [0%nat] !! i = Some yi ->
      [[Fin (7 # 10); Fin (3 # 10)]] !! i = Some row ->
      exists q p, out !! i = Some (Fin q) /\ row !! yi = Some (Fin p) /\
        (q < 1 # 2 <-> forall j v, j <> yi -> row !! j = Some (Fin v) -> v < f32_round p).
Proof.
  assert (Hv : Forall valid_row [[Fin (7 # 10); Fin (3 # 10)]]).
  { constructor; [exists [7 # 10; 3 # 10] | constructor].
    split_and!; [done | repeat constructor; discriminate | done]. }
  assert (Hr : labels_in_range [[Fin (7 # 10); Fin (3 # 10)]] [0%nat]).
  { intros [|i] yi Hy; simpl in Hy; try discriminate.
    injection Hy as <-. eexists. split; [reflexivity | simpl; lia]. }
  split; [exact Hv|].
  apply (margin_below_half_iff_top [[[Fin (7 # 10); Fin (3 # 10)]]] 0%nat
    [[Fin (7 # 10); Fin (3 # 10)]] [0%nat] eq_refl eq_refl Hr Hv).
  repeat constructor.
Defined.

Lemma stale_cache_generic {Model P : Type} (infer : Model -> input -> option P)
    (s : @nc_state Model P) (x x' : input) (lp : loc) (v : P) :
  clean s = true -> last_prediction s = Some lp -> arrays s !! lp = Some v ->
  must_recompute s x = true -> infer (model s) x = None ->
  array_equal x x' = true ->
  let s1 := snd (nc_underlying_predict infer x s) in
  fst (nc_underlying_predict infer x s) = None /\
  clean s1 = true /\ last_x s1 = Some x /\ last_prediction s1 = Some lp /\
  nc_underlying_predict infer x' s1 =
    (Some (length (arrays s)), set_arrays (arrays s ++ [v]) s1).
Proof.
  intros Hc Hlp Hv Hm Hinf Heq s1. unfold s1.
  rewrite (underlying_predict_miss infer s x Hm), Hinf. simpl.
  split_and!; [done | done | done | done |].
  rewrite underlying_predict_hit.
  - simpl. by rewrite Hlp, Hv.
  - unfold must_recompute. simpl. by rewrite Hc, Heq.
Qed.

(** X16. When a needed recomputation raises inside the model, [underlying_predict]
    has already recorded x as [last_x] and kept [clean] and the old prediction,
    so a later call with an equal input returns the old prediction without
    inference. Stated for both adapters. *)
Theorem underlying_predict_stale_after_raise :
  (forall (Model : Type) (predict_proba : Model -> input -> option matrix)
      (s : @nc_state Model matrix) (x x' : input) (lp : loc) (v : matrix),
    clean s = true -> last_prediction s = Some lp -> arrays s !! lp = Some v ->
    must_recompute s x = true -> predict_proba (model s) x = None ->
    array_equal x x' = true ->
    let s1 := snd (ProbEstClassifierNc.underlying_predict predict_proba x s) in
    fst (ProbEstClassifierNc.underlying_predict predict_proba x s) = None /\
    clean s1 = true /\ last_x s1 = Some x /\ last_prediction s1 = Some lp /\
    ProbEstClassifierNc.underlying_predict predict_proba x' s1 =
      (Some (length (arrays s)), set_arrays (arrays s ++ [v]) s1)) /\
  (forall (Model : Type) (predict : Model -> input -> option vector)
      (s : @nc_state Model vector) (x x' : input) (lp : loc) (v : vector),
    clean s = true -> last_prediction s = Some lp -> arrays s !! lp = Some v ->
    must_recompute s x = true -> predict (model s) x = None ->
    array_equal x x' = true ->
    let s1 := snd (RegressorNc.underlying_predict predict x s) in
    fst (RegressorNc.underlying_predict predict x s) = None /\
    clean s1 = true /\ last_x s1 = Some x /\ last_prediction s1 = Some lp /\
    RegressorNc.underlying_predict predict x' s1 =
      (Some (length (arrays s)), set_arrays (arrays s ++ [v]) s1)).
Proof.
  split; intros Model infer s x x' lp v Hc Hlp Hv Hm Hinf Heq;
    exact (stale_cache_generic infer s x x' lp v Hc Hlp Hv Hm Hinf Heq).
Qed.

(** X16 at a concrete input. *)
Lemma underlying_predict_stale_after_raise_witness :
  must_recompute (NcState tt true (Some [[1]]) (Some 0%nat) [[1]] 1%nat
                    : @nc_state unit vector) [[2]] = true /\
  RegressorNc.underlying_predict
    (fun (_ : unit) (x : input) => if array_equal x [[1]] then Some [1] else None)
    [[2]]
    (snd (RegressorNc.underlying_predict
      (fun (_ : unit) (x : input) => if array_equal x [[1]] then Some [1] else None)
      [[2]] (NcState tt true (Some [[1]]) (Some 0%nat) [[1]] 1%nat)))
  = (Some 1%nat, set_arrays ([[1]] ++ [[1]])
      (snd (RegressorNc.underlying_predict
        (fun (_ : unit) (x : input) => if array_equal x [[1]] then Some [1] else None)
        [[2]] (NcState tt true (Some [[1]]) (Some 0%nat) [[1]] 1%nat)))).
Proof.
  split; [reflexivity|].
  exact (proj2 (proj2 (proj2 (proj2 (proj2 underlying_predict_stale_after_raise unit
    (fun (_ : unit) (x : input) => if array_equal x [[1]] then Some [1] else None)
    (NcState tt true (Some [[1]]) (Some 0%nat) [[1]] 1%nat) [[2]] [[2]] 0%nat [1]
    eq_refl eq_refl eq_refl eq_refl eq_refl eq_refl))))).
Defined.

Lemma fit_raise_generic {Model P Y : Type}
    (fitf : Model -> input -> Y -> option Model) (infer : Model -> input -> option P)
    (s : @nc_state Model P) (xt : input) (yt : Y) (lx : input) (lp : loc) (v : P) :
  fitf (model s) xt yt = None ->
  clean s = true -> last_x s = Some lx -> last_prediction s = Some lp ->
  arrays s !! lp = Some v ->
  let s' := snd (nc_fit fitf xt yt s) in
  fst (nc_fit fitf xt yt s) = None /\
  clean s' = true /\ last_x s' = Some lx /\ last_prediction s' = Some lp /\
  arrays s' = arrays s /\
  nc_underlying_predict infer lx s' =
    (Some (length (arrays s)), set_arrays (arrays s ++ [v]) s').
Proof.
  intros Hf Hc Hlx Hlp Hv s'. unfold s', nc_fit. st_unfold. rewrite Hf. simpl.
  split_and!; [done | done | done | done | done |].
  rewrite underlying_predict_hit.
  - by rewrite Hlp, Hv.
  - unfold must_recompute. by rewrite Hc, Hlx, array_equal_refl.
Qed.

(** X17. When the model's [fit] raises, the adapter stays clean with its cache
    unchanged, so a later call on the cached input returns the cached
    prediction without inference. Stated for both adapters. *)
Theorem fit_raise_keeps_cache :
  (forall (Model Y : Type) (model_fit : Model -> input -> Y -> option Model)
      (predict_proba : Model -> input -> option matrix)
      (s : @nc_state Model matrix) (xt : input) (yt : Y) (lx : input) (lp : loc)
      (v : matrix),
    model_fit (model s) xt yt = None ->
    clean s = true -> last_x s = Some lx -> last_prediction s = Some lp ->
    arrays s !! lp = Some v ->
    let s' := snd (ProbEstClassifierNc.fit model_fit xt yt s) in
    fst (ProbEstClassifierNc.fit model_fit xt yt s) = None /\
    clean s' = true /\ last_x s' = Some lx /\ last_prediction s' = Some lp /\
    arrays s' = arrays s /\
    ProbEstClassifierNc.underlying_predict predict_proba lx s' =
      (Some (length (arrays s)), set_arrays (arrays s ++ [v]) s')) /\
  (forall (Model Y : Type) (model_fit : Model -> input -> Y -> option Model)
      (predict : Model -> input -> option vector)
      (s : @nc_state Model vector) (xt : input) (yt : Y) (lx : input) (lp : loc)
      (v : vector),
    model_fit (model s) xt yt = None ->
    clean s = true -> last_x s = Some lx -> last_prediction s = Some lp ->
    arrays s !! lp = Some v ->
    let s' := snd (RegressorNc.fit model_fit xt yt s) in
    fst (RegressorNc.fit model_fit xt yt s) = None /\
    clean s' = true /\ last_x s' = Some lx /\ last_prediction s' = Some lp /\
    arrays s' = arrays s /\
    RegressorNc.underlying_predict predict lx s' =
      (Some (length (arrays s)), set_arrays (arrays s ++ [v]) s')).
Proof.
  split; intros Model Y fitf infer s xt yt lx lp v Hf Hc Hlx Hlp Hv;
    exact (fit_raise_generic fitf infer s xt yt lx lp v Hf Hc Hlx Hlp Hv).
Qed.

(** X17 at a concrete input. *)
Lemma fit_raise_keeps_cache_witness :
  fst (ProbEstClassifierNc.fit (fun (_ : unit) (_ : input) (_ : unit) => None)
         [[5]] tt (NcState tt true (Some [[1]]) (Some 0%nat) [[[Fin 1]]] 1%nat))
    = None /\
  ProbEstClassifierNc.underlying_predict (fun (_ : unit) (_ : input) => Some [[Fin 1]])
    [[1]] (snd (ProbEstClassifierNc.fit (fun (_ : unit) (_ : input) (_ : unit) => None)
         [[5]] tt (NcState tt true (Some [[1]]) (Some 0%nat) [[[Fin 1]]] 1%nat)))
  = (Some 1%nat, set_arrays ([[[Fin 1]]] ++ [[[Fin 1]]])
       (snd (ProbEstClassifierNc.fit (fun (_ : unit) (_ : input) (_ : unit) => None)
         [[5]] tt (NcState tt true (Some [[1]]) (Some 0%nat) [[[Fin 1]]] 1%nat)))).
Proof.
  destruct (proj1 fit_raise_keeps_cache unit unit
    (fun (_ : unit) (_ : input) (_ : unit) => None)
    (fun (_ : unit) (_ : input) => Some [[Fin 1]])
    (NcState tt true (Some [[1]]) (Some 0%nat) [[[Fin 1]]] 1%nat) [[5]] tt [[1]] 0%nat
    [[Fin 1]] eq_refl eq_refl eq_refl eq_refl eq_refl)
    as (Hf & _ & _ & _ & _ & Hu).
  split; [exact Hf | exact Hu].
Defined.

Lemma underlying_predict_appends {Model P : Type} (infer : Model -> input -> option P)
    (s : @nc_state Model P) (x : input) :
  exists ext, arrays (snd (nc_underlying_predict infer x s)) = arrays s ++ ext.
Proof.
  destruct (must_recompute s x) eqn:Hm.
  - rewrite underlying_predict_miss by done.
    destruct (infer (model s) x) as [p|]; simpl; eexists; [reflexivity|].
    by rewrite app_nil_r.
  - rewrite underlying_predict_hit by done.
    destruct (last_prediction s) as [lp|]; [|exists []; by rewrite app_nil_r].
    destruct (arrays s !! lp); [|exists []; by rewrite app_nil_r].
    eexists; reflexivity.
Qed.

(** X18. [underlying_predict] never changes an array already in the store, also when
    it raises: it only appends. Stated for both adapters. *)
Theorem underlying_predict_only_appends :
  (forall (Model : Type) (predict_proba : Model -> input -> option matrix)
      (s : @nc_state Model matrix) (x : input),
    exists ext, arrays (snd (ProbEstClassifierNc.underlying_predict predict_proba x s))
                = arrays s ++ ext) /\
  (forall (Model : Type) (predict : Model -> input -> option vector)
      (s : @nc_state Model vector) (x : input),
    exists ext, arrays (snd (RegressorNc.underlying_predict predict x s))
                = arrays s ++ ext).
Proof.
  split; intros Model infer s x; exact (underlying_predict_appends infer s x).
Qed.

(** [margin] reads and writes only the array it is given. *)
Lemma margin_loop_local (y : list nat) :
  forall (k : nat) (l1 l2 : loc) (h1 h2 : list matrix),
  h1 !! l1 = h2 !! l2 ->
  fst (margin_loop l1 k y h1) = fst (margin_loop l2 k y h2) /\
  snd (margin_loop l1 k y h1) !! l1 = snd (margin_loop l2 k y h2) !! l2.
Proof.
  induction y as [|yi y IH]; intros k l1 l2 h1 h2 Heq; simpl; st_unfold; [done|].
  rewrite Heq. destruct (h2 !! l2) as [m|] eqn:E2; simpl; [|split; [done | congruence]].
  destruct (m !! k) as [row|]; simpl; [|split; [done | congruence]].
  destruct (row !! yi) as [v|]; simpl; [|split; [done | congruence]].
  rewrite !decide_True by (eapply lookup_lt_Some; eauto).
  set (m' := <[k := <[yi := NInf]> row]> m).
  destruct (IH (S k) l1 l2 (<[l1 := m']> h1) (<[l2 := m']> h2)) as [Hf Hs].
  { rewrite !list_lookup_insert_eq; [done | | ]; eapply lookup_lt_Some; eauto. }
  destruct (margin_loop l1 (S k) y (<[l1 := m']> h1)) as [r1 g1].
  destruct (margin_loop l2 (S k) y (<[l2 := m']> h2)) as [r2 g2].
  simpl in Hf, Hs. subst r2. destruct r1; done.
Qed.

Lemma margin_local (y : list nat) (l1 l2 : loc) (h1 h2 : list matrix) :
  h1 !! l1 = h2 !! l2 -> fst (margin l1 y h1) = fst (margin l2 y h2).
Proof.
  intros Heq. destruct (margin_loop_local y 0 l1 l2 h1 h2 Heq) as [Hf Hs].
  unfold margin. st_unfold.
  destruct (margin_loop l1 0 y h1) as [r1 g1].
  destruct (margin_loop l2 0 y h2) as [r2 g2].
  simpl in Hf, Hs. subst r2. destruct r1 as [prob|]; [|done].
  rewrite Hs. destruct (g2 !! l2) as [a|]; [|done].
  destruct (np_max_axis1 a); [|done]. by destruct (bcast _ _ _).
Qed.

(** X19. After a successful [calc_nc] with [margin], a second call on an equal input
    returns the same scores without inference, although [margin] masked the
    copy it was given. *)
Theorem calc_nc_margin_repeatable {Model : Type}
    (predict_proba : Model -> input -> option matrix)
    (s s1 : @nc_state Model matrix) (x x' : input) (y : list nat) (r : list fl) :
  array_equal x x' = true ->
  ProbEstClassifierNc.calc_nc predict_proba margin x y s = (Some r, s1) ->
  exists s2, ProbEstClassifierNc.calc_nc predict_proba margin x' y s1 = (Some r, s2) /\
    n_infer s2 = n_infer s1.
Proof.
  intros Heq Hrun. unfold ProbEstClassifierNc.calc_nc, nc_calc_nc in *.
  unfold st_bind in Hrun.
  destruct (nc_underlying_predict predict_proba x s) as [[l|] s0] eqn:Hu;
    [|discriminate].
  unfold on_arrays in Hrun.
  destruct (margin l y (arrays s0)) as [r0 h1] eqn:Hm.
  injection Hrun as -> <-.
  destruct (underlying_predict_post predict_proba s s0 x l Hu)
    as (lp & v & lx & Hlp & Hlt & Hv & Hl & Hc & Hlx & Hax & _).
  assert (Hv1 : h1 !! lp = Some v).
  { rewrite <- Hv. change h1 with (snd (Some r, h1)). rewrite <- Hm.
    apply margin_frame. lia. }
  assert (Hmiss : must_recompute (set_arrays h1 s0) x' = false).
  { unfold must_recompute. simpl. rewrite Hc, Hlx. simpl.
    by rewrite (array_equal_trans lx x x' Hax Heq). }
  unfold st_bind. rewrite (underlying_predict_hit predict_proba _ x' Hmiss).
  simpl. rewrite Hlp, Hv1. unfold on_arrays. simpl.
  assert (Hr : fst (margin (length h1) y (h1 ++ [v])) = Some r).
  { change (Some r) with (fst (Some r, h1)). rewrite <- Hm.
    apply margin_local. by rewrite lookup_alloc_fresh, Hl. }
  destruct (margin (length h1) y (h1 ++ [v])) as [r2 h2]. simpl in Hr. subst r2.
  eexists. split; [reflexivity | done].
Qed.

(** X19 at a concrete input. *)
Lemma calc_nc_margin_repeatable_witness :
  exists r s1,
    ProbEstClassifierNc.calc_nc (fun (_ : unit) (_ : input) => Some [[Fin (7 # 10); Fin (3 # 10)]])
      margin [[1]] [0%nat] (nc_init tt []) = (Some r, s1) /\
    exists s2,
      ProbEstClassifierNc.calc_nc (fun (_ : unit) (_ : input) => Some [[Fin (7 # 10); Fin (3 # 10)]])
        margin [[1]] [0%nat] s1 = (Some r, s2) /\ n_infer s2 = n_infer s1.
Proof.
  do 2 eexists. split; [reflexivity|].
  exact (calc_nc_margin_repeatable
    (fun (_ : unit) (_ : input) => Some [[Fin (7 # 10); Fin (3 # 10)]])
    (nc_init tt []) _ [[1]] [[1]] [0%nat] _ eq_refl eq_refl).
Defined.

(** X20. After [underlying_predict] on x, [RegressorNc.predict] with
    [absolute_error_inverse] on an equal input runs no inference and returns
    intervals of half-width d around the cached prediction. *)
Theorem predict_reuses_cache {Model : Type}
    (model_predict : Model -> input -> option vector)
    (s s1 : @nc_state Model vector) (x x' : input) (l ln : loc) (nc : vector)
    (significance : Q) :
  RegressorNc.underlying_predict model_predict x s = (Some l, s1) ->
  array_equal x x' = true -> arrays s1 !! ln = Some nc -> nc <> [] ->
  significance < 1 ->
  let border := Z.to_nat (Z.max (Qfloor (significance *
                  inject_Z (Z.of_nat (length nc) + 1)) - 1) 0) in
  exists v d s2, arrays s1 !! l = Some v /\
    reverse (np_sort nc) !! border = Some d /\
    RegressorNc.predict model_predict absolute_error_inverse x' ln significance s1
      = (Some (map (fun q => (q - d, q + d)) v), s2) /\
    n_infer s2 = n_infer s1.
Proof.
  intros Hu Heq Hnc Hne Hs border.
  unfold RegressorNc.underlying_predict in Hu.
  destruct (underlying_predict_post model_predict s s1 x l Hu)
    as (lp & v & lx & Hlp & Hlt & Hv & Hl & Hc & Hlx & Hax & _).
  assert (Hmiss : must_recompute s1 x' = false).
  { unfold must_recompute. rewrite Hc, Hlx. simpl.
    by rewrite (array_equal_trans lx x x' Hax Heq). }
  destruct (absolute_error_inverse_run (arrays s1 ++ [v]) (length (arrays s1)) ln
              v nc significance) as (_ & d & Hd & Hrun);
    [apply lookup_alloc_fresh | by rewrite lookup_app_l by (eapply lookup_lt_Some; eauto)
    | done | done |].
  exists v, d. eexists. split_and!; [done | exact Hd | |].
  - unfold RegressorNc.predict, RegressorNc.underlying_predict, st_bind.
    rewrite (underlying_predict_hit model_predict s1 x' Hmiss), Hlp, Hv.
    unfold on_arrays. simpl. rewrite Hrun. reflexivity.
  - reflexivity.
Qed.

(** X20 at a concrete input. *)
Lemma predict_reuses_cache_witness :
  exists s1,
    RegressorNc.underlying_predict (fun (_ : unit) (_ : input) => Some [10; 20])
      [[1]; [2]] (nc_init tt [[1; 2; 3; 4; 5]]) = (Some 2%nat, s1) /\
    arrays s1 !! 0%nat = Some [1; 2; 3; 4; 5] /\
    exists v d s2, arrays s1 !! 2%nat = Some v /\
      reverse (np_sort [1; 2; 3; 4; 5]) !! 1%nat = Some d /\
      RegressorNc.predict (fun (_ : unit) (_ : input) => Some [10; 20])
        absolute_error_inverse [[1]; [2]] 0%nat (2 # 5) s1
        = (Some (map (fun q => (q - d, q + d)) v), s2) /\
      n_infer s2 = n_infer s1.
Proof.
  eexists. split; [reflexivity|]. split; [reflexivity|].
  exact (predict_reuses_cache (fun (_ : unit) (_ : input) => Some [10; 20])
    (nc_init tt [[1; 2; 3; 4; 5]]) _ [[1]; [2]] [[1]; [2]] 2%nat 0%nat [1; 2; 3; 4; 5]
    (2 # 5) eq_refl eq_refl eq_refl ltac:(discriminate) eq_refl).
Defined.
